(** * gemini-xo build scripts: a shallow embedding

    The repository's two packaging drivers, [scripts/build-single-file.js]
    and [scripts/build-standalone.js], are sequential programs over the
    file system, the console and child processes.  They are embedded here
    as functions in a state-and-exception monad over a [world] made of a
    file system and the trace of the calls the script issued.  The host
    (install location, [process.platform], [process.arch], and what child
    processes do) is a parameter of every definition. *)

From stdpp Require Import gmap strings list fin_maps.
From Stdlib Require Import ZArith Ascii String DecimalString.

Open Scope string_scope.
Open Scope list_scope.

(** ** JavaScript strings *)

(** [s.startsWith(pre)] *)
Definition startsWith (pre s : string) : bool := String.prefix pre s.

(** [s.endsWith(suf)] *)
Definition endsWith (suf s : string) : bool :=
  String.prefix (String.rev suf) (String.rev s).

(** [xs.join(sep)] *)
Definition join_with (sep : string) (xs : list string) : string :=
  String.concat sep xs.

Fixpoint trim_start (s : string) : string :=
  match s with
  | String c s' => if Ascii.is_space c then trim_start s' else s
  | EmptyString => EmptyString
  end.

(** [s.trim()] *)
Definition trim (s : string) : string :=
  String.rev (trim_start (String.rev (trim_start s))).

(** [`${n}`] for a number, and for [null] *)
Definition show_status (st : option Z) : string :=
  match st with
  | Some z => NilZero.string_of_int (Z.to_int z)
  | None => "null"
  end.

(** ** Paths

    A path is the list of its components below the file-system root.
    [path.join(base, s)] appends the components of [s]; the scripts only
    ever join literal names, names read from a directory, and platform
    keys that passed the table lookup, none of which has a dot segment. *)

Fixpoint segments_go (cur : string) (s : string) : list string :=
  match s with
  | EmptyString => if decide (cur = "") then [] else [String.rev cur]
  | String c s' =>
      if Ascii.eqb c "/"%char
      then (if decide (cur = "") then [] else [String.rev cur]) ++ segments_go "" s'
      else segments_go (String c cur) s'
  end.

Definition segments (s : string) : list string := segments_go "" s.

Definition join (base : list string) (s : string) : list string :=
  base ++ segments s.

(** The path as the scripts print it. *)
Definition path_str (p : list string) : string :=
  "/" +:+ join_with "/" p.

(** ** The file system

    A finite map from paths to nodes: directories, and regular files with
    their content and mode.  Permissions, links and the umask are left
    out, so the Node calls below fail only for the shape of the tree: a
    missing entry, a file where a directory is needed, a directory where a
    file is.  The text of the errors Node raises is not modelled; the
    messages below stand for them. *)

Inductive node :=
| Dir
| File (content : string) (mode : Z).

#[global] Instance node_eq_dec : EqDecision node.
Proof. solve_decision. Defined.

Abbreviation filesystem := (gmap (list string) node).

Definition is_dir (f : filesystem) (p : list string) : bool :=
  match p with
  | [] => true
  | _ => match f !! p with Some Dir => true | _ => false end
  end.

Definition exists_in (f : filesystem) (p : list string) : bool :=
  match p with
  | [] => true
  | _ => match f !! p with Some _ => true | None => false end
  end.

(** [mkdir -p]: walks down from [pre], creating what is missing; a regular
    file on the way is an error. *)
Fixpoint mkdir_p (f : filesystem) (pre : list string) (rest : list string)
  : option filesystem :=
  match rest with
  | [] => Some f
  | s :: rest' =>
      let p := pre ++ [s] in
      match f !! p with
      | Some Dir => mkdir_p f p rest'
      | Some (File _ _) => None
      | None => mkdir_p (<[p := Dir]> f) p rest'
      end
  end.

(** [rm -r]: the entry and everything below it. *)
Definition rm_r (f : filesystem) (p : list string) : filesystem :=
  filter (λ kv, ¬ (p `prefix_of` kv.1)) f.

Definition child_name (p k : list string) : option string :=
  match reverse k with
  | n :: r => if decide (reverse r = p) then Some n else None
  | [] => None
  end.

(** The names of the entries directly inside [p]. *)
Definition children (f : filesystem) (p : list string) : list string :=
  omap (λ kv, child_name p kv.1) (map_to_list f).

(** Creating or overwriting a regular file.  The mode is only applied when
    the file is created. *)
Definition write_file (f : filesystem) (p : list string) (c : string) (mode : Z)
  : option filesystem :=
  match p with
  | [] => None
  | _ =>
      if is_dir f (removelast p) then
        match f !! p with
        | Some Dir => None
        | Some (File _ m) => Some (<[p := File c m]> f)
        | None => Some (<[p := File c mode]> f)
        end
      else None
  end.

(** Copying a regular file; the destination takes the source's mode. *)
Definition copy_file (f : filesystem) (src dst : list string) : option filesystem :=
  match f !! src, dst with
  | Some (File c m), _ :: _ =>
      if is_dir f (removelast dst) then
        match f !! dst with
        | Some Dir => None
        | _ => Some (<[dst := File c m]> f)
        end
      else None
  | _, _ => None
  end.

(** ** The world, and the monad of a script *)

Inductive event :=
| EvLog (s : string)                         (* console.log *)
| EvError (s : string)                       (* console.error *)
| EvWarn (s : string)                        (* console.warn *)
| EvSpawn (cmd : string) (args : list string)  (* spawnSync *)
| EvExists (p : list string) (found : bool)  (* existsSync *)
| EvMkdir (p : list string)                  (* mkdirSync, recursive *)
| EvRm (p : list string)                     (* rmSync, recursive *)
| EvReaddir (p : list string)                (* readdirSync *)
| EvCopy (src dst : list string)             (* copyFileSync *)
| EvWriteFile (p : list string) (c : string). (* writeFileSync *)

#[global] Instance event_eq_dec : EqDecision event.
Proof. solve_decision. Defined.

Record spawn_result := SpawnResult {
  status : option Z;   (* [null] when the child could not be started *)
  stdout : string
}.

Record world := World {
  fs : filesystem;
  trace : list event
}.

Record host := Host {
  rootDir : list string;       (* [join(__dirname, '..')] *)
  os_platform : string;        (* [process.platform] *)
  os_arch : string;            (* [process.arch] *)
  (* what a child process does: given the calls so far, the command and
     the file system, its result and the file system it leaves *)
  child : list event → string → list string → filesystem → spawn_result * filesystem
}.

Inductive outcome (A : Type) :=
| Ok (a : A)
| Throw (msg : string)     (* [throw new Error(msg)], or a Node error *)
| Exit (code : Z).         (* [process.exit(code)] *)
Arguments Ok {A} a.
Arguments Throw {A} msg.
Arguments Exit {A} code.

Definition M (A : Type) : Type := world → outcome A * world.

Definition ret {A} (a : A) : M A := λ w, (Ok a, w).

Definition bind {A B} (m : M A) (k : A → M B) : M B :=
  λ w, match m w with
       | (Ok a, w') => k a w'
       | (Throw e, w') => (Throw e, w')
       | (Exit c, w') => (Exit c, w')
       end.

Notation "x <- m ;; k" := (bind m (λ x, k))
  (at level 100, m at next level, right associativity).
Notation "m ;;; k" := (bind m (λ _, k))
  (at level 100, right associativity).

Definition throw {A} (msg : string) : M A := λ w, (Throw msg, w).

(** [process.exit(code)] *)
Definition exit {A} (code : Z) : M A := λ w, (Exit code, w).

(** [try { m } catch (e) { handler e }]: only a thrown error is caught;
    [process.exit] is not. *)
Definition try_catch {A} (m : M A) (handler : string → M A) : M A :=
  λ w, match m w with
       | (Throw e, w') => handler e w'
       | r => r
       end.

(** [for (const x of xs) { body x }] *)
Fixpoint for_of {A} (xs : list A) (body : A → M unit) : M unit :=
  match xs with
  | [] => ret tt
  | x :: xs' => body x ;;; for_of xs' body
  end.

Definition emit (e : event) (w : world) : world :=
  World (fs w) (trace w ++ [e]).

Definition console_log (s : string) : M unit := λ w, (Ok tt, emit (EvLog s) w).
Definition console_error (s : string) : M unit := λ w, (Ok tt, emit (EvError s) w).
Definition console_warn (s : string) : M unit := λ w, (Ok tt, emit (EvWarn s) w).

Definition existsSync (p : list string) : M bool :=
  λ w, let b := exists_in (fs w) p in (Ok b, emit (EvExists p b) w).

(** [mkdirSync(p, { recursive: true })] *)
Definition mkdirSync (p : list string) : M unit :=
  λ w, let w1 := emit (EvMkdir p) w in
       match mkdir_p (fs w) [] p with
       | Some f' => (Ok tt, World f' (trace w1))
       | None => (Throw "EEXIST: file already exists, mkdir", w1)
       end.

(** [rmSync(p, { recursive: true })]; without [force] a missing path is an
    error. *)
Definition rmSync (p : list string) : M unit :=
  λ w, let w1 := emit (EvRm p) w in
       if exists_in (fs w) p
       then (Ok tt, World (rm_r (fs w) p) (trace w1))
       else (Throw "ENOENT: no such file or directory, rm", w1).

Definition readdirSync (p : list string) : M (list string) :=
  λ w, let w1 := emit (EvReaddir p) w in
       if is_dir (fs w) p
       then (Ok (children (fs w) p), w1)
       else (Throw "ENOTDIR: not a directory, scandir", w1).

Definition copyFileSync (src dst : list string) : M unit :=
  λ w, let w1 := emit (EvCopy src dst) w in
       match copy_file (fs w) src dst with
       | Some f' => (Ok tt, World f' (trace w1))
       | None => (Throw "ENOENT: no such file or directory, copyfile", w1)
       end.

(** [writeFileSync(p, c, { mode })]; the default mode is [0o666]. *)
Definition writeFileSync (p : list string) (c : string) (mode : Z) : M unit :=
  λ w, let w1 := emit (EvWriteFile p c) w in
       match write_file (fs w) p c mode with
       | Some f' => (Ok tt, World f' (trace w1))
       | None => (Throw "ENOENT: no such file or directory, open", w1)
       end.

Definition default_mode : Z := 438.
Definition exec_mode : Z := 493.

(** [0o666] and [0o755] are the constants [default_mode] and [exec_mode]. *)

Definition nl : string := String (ascii_of_nat 10) EmptyString.
Definition dq : string := String (ascii_of_nat 34) EmptyString.

(** A double-quoted piece of a script. *)
Definition quoted (s : string) : string := dq +:+ s +:+ dq.

(** The text of a template literal given line by line: every line ends
    with a newline. *)
Definition unlines (ls : list string) : string :=
  String.concat "" (map (λ l, l +:+ nl) ls).

(** [`${n}`] for a length *)
Definition show_nat (n : nat) : string := NilZero.string_of_uint (Nat.to_uint n).

(** ** JavaScript objects used as tables

    [obj[key]] finds the object's own property, else what every object
    inherits from [Object.prototype], else [undefined]. *)

Inductive property (A : Type) :=
| Own (a : A)
| Inherited (name : string)
| Undefined.
Arguments Own {A} a.
Arguments Inherited {A} name.
Arguments Undefined {A}.

Definition object_prototype : list string :=
  [ "constructor"; "__defineGetter__"; "__defineSetter__"; "hasOwnProperty";
    "__lookupGetter__"; "__lookupSetter__"; "isPrototypeOf";
    "propertyIsEnumerable"; "toString"; "valueOf"; "__proto__";
    "toLocaleString" ].

Fixpoint own_property {A} (obj : list (string * A)) (key : string) : option A :=
  match obj with
  | [] => None
  | (k, v) :: obj' => if decide (k = key) then Some v else own_property obj' key
  end.

(** [obj[key]] *)
Definition get {A} (obj : list (string * A)) (key : string) : property A :=
  match own_property obj key with
  | Some v => Own v
  | None => if bool_decide (key ∈ object_prototype) then Inherited key else Undefined
  end.

(** [Object.keys(obj)] *)
Definition keys {A} (obj : list (string * A)) : list string := map fst obj.

(** What counts as true in a condition. *)
Class Truthy (A : Type) := truthy : A → bool.

#[global] Instance string_truthy : Truthy string :=
  λ s, match s with EmptyString => false | _ => true end.

#[global] Instance option_truthy {A} `{Truthy A} : Truthy (option A) :=
  λ o, match o with Some a => truthy a | None => false end.

#[global] Instance property_truthy {A} `{Truthy A} : Truthy (property A) :=
  λ p, match p with Own a => truthy a | Inherited _ => true | Undefined => false end.

(** How a looked-up value reads inside [args.join(' ')] and template
    literals. *)
Definition render (p : property string) : string :=
  match p with
  | Own s => s
  | Inherited name => "function " +:+ name +:+ "() { [native code] }"
  | Undefined => ""
  end.

(** [path.join(base, v)] for a looked-up value: anything but a string is a
    [TypeError]. *)
Definition join_property (base : list string) (v : property string) : M (list string) :=
  match v with
  | Own s => ret (join base s)
  | _ => throw "TypeError: The path argument must be of type string"
  end.

(** [path.join(dir, name)] for a name read from a directory: one more
    component. *)
Definition entry (dir : list string) (name : string) : list string := dir ++ [name].

(** [args.includes(x)] *)
Definition includes (x : string) (xs : list string) : bool := bool_decide (x ∈ xs).

(** [args.find((a) => !a.startsWith('--'))] *)
Definition first_positional (args : list string) : option string :=
  List.find (λ a, negb (startsWith "--" a)) args.

(** [result.status !== 0] *)
Definition failed (r : spawn_result) : bool :=
  negb (bool_decide (status r = Some 0%Z)).

(** [spawnSync(cmd, args, ...)] *)
Definition spawnSync (h : host) (cmd : string) (args : list string) : M spawn_result :=
  λ w, let w1 := emit (EvSpawn cmd args) w in
       let r := child h (trace w) cmd args (fs w) in
       (Ok r.1, World r.2 (trace w1)).

(** How Node ends a script: exit code 0 when it runs to its end, the code
    given to [process.exit], and code 1 with the error on stderr for an
    uncaught exception. *)
Definition node_run (m : M unit) (w : world) : Z * world :=
  match m w with
  | (Ok _, w') => (0%Z, w')
  | (Exit c, w') => (c, w')
  | (Throw e, w') => (1%Z, emit (EvError ("Uncaught Error: " +:+ e)) w')
  end.

(** ** scripts/build-single-file.js *)

Module SingleFile.

(** Bun compile targets *)
Definition targets : list (string * string) :=
  [ ("linux-x64", "bun-linux-x64");
    ("linux-arm64", "bun-linux-arm64");
    ("mac-x64", "bun-darwin-x64");
    ("mac-arm64", "bun-darwin-arm64");
    ("win-x64", "bun-windows-x64") ].

Definition outputNames : list (string * string) :=
  [ ("linux-x64", "gsharp");
    ("linux-arm64", "gsharp");
    ("mac-x64", "gsharp");
    ("mac-arm64", "gsharp");
    ("win-x64", "gsharp.exe") ].

Definition ptyMap : list (string * string) :=
  [ ("win-x64", "@lydell/node-pty-win32-x64");
    ("mac-x64", "@lydell/node-pty-darwin-x64");
    ("mac-arm64", "@lydell/node-pty-darwin-arm64");
    ("linux-x64", "@lydell/node-pty-linux-x64");
    ("linux-arm64", "@lydell/node-pty-linux-arm64") ].

Definition getCurrentPlatform (platform arch : string) : string :=
  if decide (platform = "win32") then "win-x64"
  else if decide (platform = "darwin")
       then (if decide (arch = "arm64") then "mac-arm64" else "mac-x64")
       else (if decide (arch = "arm64") then "linux-arm64" else "linux-x64").

Section Host.
Variable h : host.

Definition distDir : list string := join (rootDir h) "dist-single".
Definition bundleDir : list string := join (rootDir h) "bundle".

(** [run(command, args, options = {})]; [allowFailure] is the one
    option the function reads. *)
Definition run (command : string) (args : list string) (allowFailure : bool)
  : M spawn_result :=
  console_log ("> " +:+ command +:+ " " +:+ join_with " " args) ;;;
  result <- spawnSync h command args ;;
  if failed result && negb allowFailure
  then throw ("Command failed: " +:+ command +:+ " " +:+ join_with " " args)
  else ret result.

Definition ensureBundle : M (list string) :=
  let bundleFile := join bundleDir "gemini.js" in
  found <- existsSync bundleFile ;;
  (if negb found
   then console_log "Bundle not found, building..." ;;;
        _ <- run "npm" ["run"; "bundle"] false ;; ret tt
   else ret tt) ;;;
  ret bundleFile.

Definition copyNativeAddons (platform : string) (destDir : list string) : M unit :=
  let ptyPackage := get ptyMap platform in
  if negb (truthy ptyPackage) then ret tt
  else
    try_catch
      (ptyPath <- join_property (join (rootDir h) "node_modules") ptyPackage ;;
       found <- existsSync ptyPath ;;
       if found then
         names <- readdirSync ptyPath ;;
         let files := List.filter (endsWith ".node") names in
         for_of files (λ file,
           copyFileSync (entry ptyPath file) (entry destDir file) ;;;
           console_log ("  Copied addon: " +:+ file))
       else ret tt)
      (λ _e, console_warn "  Warning: Could not copy native addons").

(** [path.join] rejects an output name that is not a string before anything
    else happens; past it the key is in both tables, and [render target] is
    the compile target itself. *)
Definition buildForPlatform (platform : string) (bundlePath : list string)
  : M (list string) :=
  let target := get targets platform in
  let outputName := get outputNames platform in
  let platformDir := join distDir platform in
  outputPath <- join_property platformDir outputName ;;
  mkdirSync platformDir ;;;
  console_log (nl +:+ "Building single-file for " +:+ platform +:+ "...") ;;;
  (* Use Bun to compile *)
  _ <- run "bun"
         [ "build"; path_str bundlePath; "--compile"; "--target"; render target;
           "--outfile"; path_str outputPath; "--minify" ] false ;;
  (* Copy native addons alongside *)
  copyNativeAddons platform platformDir ;;;
  console_log ("  Built: " +:+ path_str outputPath) ;;;
  ret outputPath.

(** Check if bun is available *)
Definition checkBun : M unit :=
  bunCheck <- spawnSync h "bun" ["--version"] ;;
  if failed bunCheck
  then console_error
         "Bun not found. Install with: curl -fsSL https://bun.sh/install | bash" ;;;
       exit 1
  else console_log ("Using Bun " +:+ trim (stdout bunCheck)).

(** Clean and create dist directory *)
Definition cleanDist : M unit :=
  found <- existsSync distDir ;;
  (if found then rmSync distDir else ret tt) ;;;
  mkdirSync distDir.

(** One turn of the [--all] loop. *)
Definition tryBuild (bundlePath : list string) (platform : string) : M unit :=
  try_catch
    (_ <- buildForPlatform platform bundlePath ;; ret tt)
    (λ message,
       console_error ("Failed to build for " +:+ platform +:+ ": " +:+ message)).

(** Build executables *)
Definition buildExecutables (args : list string) (bundlePath : list string) : M unit :=
  let buildAll := includes "--all" args in
  let specificPlatform := first_positional args in
  if buildAll then
    console_log (nl +:+ "Building for all platforms...") ;;;
    for_of (keys targets) (tryBuild bundlePath)
  else if truthy specificPlatform
            && truthy (get targets (default "" specificPlatform)) then
    _ <- buildForPlatform (default "" specificPlatform) bundlePath ;; ret tt
  else if truthy specificPlatform then
    console_error ("Unknown platform: " +:+ default "" specificPlatform) ;;;
    console_log ("Available: " +:+ join_with ", " (keys targets)) ;;;
    exit 1
  else
    _ <- buildForPlatform (getCurrentPlatform (os_platform h) (os_arch h)) bundlePath ;;
    ret tt.

(** [main()], with [args = process.argv.slice(2)] *)
Definition main (args : list string) : M unit :=
  checkBun ;;;
  cleanDist ;;;
  bundlePath <- ensureBundle ;;
  buildExecutables args bundlePath ;;;
  console_log (nl +:+ "Done! Single-file executables are in dist-single/").

(** [main().catch(...)] *)
Definition script (args : list string) : M unit :=
  try_catch (main args)
    (λ err, console_error ("Build failed: " +:+ err) ;;; exit 1).

End Host.
End SingleFile.

(** ** scripts/build-standalone.js *)

Module Standalone.

Record config := Config { ext : string }.

#[global] Instance config_truthy : Truthy config := λ _, true.

Definition platforms : list (string * config) :=
  [ ("linux-x64", Config "");
    ("linux-arm64", Config "");
    ("mac-x64", Config "");
    ("mac-arm64", Config "");
    ("win-x64", Config ".cmd") ].

Definition ptyMap : list (string * string) :=
  [ ("win-x64", "@lydell/node-pty-win32-x64");
    ("mac-x64", "@lydell/node-pty-darwin-x64");
    ("mac-arm64", "@lydell/node-pty-darwin-arm64");
    ("linux-x64", "@lydell/node-pty-linux-x64");
    ("linux-arm64", "@lydell/node-pty-linux-arm64") ].

Definition getCurrentPlatform (platform arch : string) : string :=
  if decide (platform = "win32") then "win-x64"
  else if decide (platform = "darwin")
       then (if decide (arch = "arm64") then "mac-arm64" else "mac-x64")
       else (if decide (arch = "arm64") then "linux-arm64" else "linux-x64").

Definition batContent : string :=
  unlines [ "@echo off";
            "setlocal";
            "set " +:+ quoted "SCRIPT_DIR=%~dp0";
            "node " +:+ quoted "%SCRIPT_DIR%\bundle\gemini.js" +:+ " %*" ].

Definition shContent : string :=
  unlines [ "#!/bin/sh";
            "SCRIPT_DIR=" +:+ dq +:+ "$(cd " +:+ dq +:+ "$(dirname " +:+ quoted "$0"
              +:+ ")" +:+ dq +:+ " && pwd)" +:+ dq;
            "exec node " +:+ quoted "$SCRIPT_DIR/bundle/gemini.js" +:+ " " +:+ quoted "$@" ].

Definition readmeContent (isWindows : bool) : string :=
  unlines [ "# Gemini Sharp (gsharp)";
            "";
            "A privacy-focused, enhanced Gemini CLI.";
            "";
            "## Installation";
            "";
            "1. Extract this archive to a directory of your choice";
            "2. Add the directory to your PATH, or run directly:";
            "   " +:+ (if isWindows then ".\gsharp.cmd" else "./gsharp");
            "";
            "## Requirements";
            "";
            "- Node.js 20+ must be installed and available as 'node' in PATH";
            "- Or download Node.js from: https://nodejs.org/";
            "";
            "## Usage";
            "";
            "  gsharp              # Start interactive mode";
            "  gsharp " +:+ quoted "prompt" +:+ "     # Run with a prompt";
            "  gsharp --help       # Show help";
            "";
            "## More Info";
            "";
            "https://github.com/johnzfitch/gemini-xo" ].

Section Host.
Variable h : host.

Definition bundleDir : list string := join (rootDir h) "bundle".
Definition distDir : list string := join (rootDir h) "dist-standalone".

(** [run(command, args, options = {})] *)
Definition run (command : string) (args : list string) (allowFailure : bool)
  : M spawn_result :=
  console_log ("> " +:+ command +:+ " " +:+ join_with " " args) ;;;
  result <- spawnSync h command args ;;
  if failed result && negb allowFailure
  then console_error ("Command failed with status " +:+ show_status (status result)) ;;;
       exit 1
  else ret result.

Definition ensureBundle : M (list string) :=
  let bundleFile := join bundleDir "gemini.js" in
  found <- existsSync bundleFile ;;
  (if negb found
   then console_log "Bundle not found, building..." ;;;
        _ <- run "npm" ["run"; "bundle"] false ;; ret tt
   else ret tt) ;;;
  ret bundleFile.

Definition createLauncher (platformDir : list string) (isWindows : bool) : M unit :=
  if isWindows then
    writeFileSync (join platformDir "gsharp.cmd") batContent default_mode ;;;
    writeFileSync (join platformDir "gemini-sharp.cmd") batContent default_mode
  else
    let gsharpPath := join platformDir "gsharp" in
    let geminiSharpPath := join platformDir "gemini-sharp" in
    writeFileSync gsharpPath shContent exec_mode ;;;
    writeFileSync geminiSharpPath shContent exec_mode.

Definition copyNativeAddons (platform : string) (destDir : list string) : M unit :=
  let ptyPackage := get ptyMap platform in
  if negb (truthy ptyPackage) then ret tt
  else
    try_catch
      (ptyPath <- join_property (join (rootDir h) "node_modules") ptyPackage ;;
       found <- existsSync ptyPath ;;
       if found then
         names <- readdirSync ptyPath ;;
         let files := List.filter (endsWith ".node") names in
         for_of files (λ file,
           copyFileSync (entry ptyPath file) (entry destDir file) ;;;
           console_log ("  Copied native addon: " +:+ file))
       else ret tt)
      (λ _e, console_warn ("  Warning: Could not copy native addons for " +:+ platform)).

Definition buildPackage (platformKey : string) : M (list string) :=
  let config := get platforms platformKey in
  (if negb (truthy config)
   then console_error ("Unknown platform: " +:+ platformKey) ;;; exit 1
   else ret tt) ;;;
  let isWindows := startsWith "win" platformKey in
  let platformDir := join distDir ("gsharp-" +:+ platformKey) in
  let bundleDestDir := join platformDir "bundle" in
  mkdirSync bundleDestDir ;;;
  console_log (nl +:+ "Building package for " +:+ platformKey +:+ "...") ;;;
  (* Copy bundle files *)
  bundleFiles <- readdirSync bundleDir ;;
  for_of bundleFiles (λ file,
    copyFileSync (entry bundleDir file) (entry bundleDestDir file)) ;;;
  console_log ("  Copied " +:+ show_nat (List.length bundleFiles) +:+ " bundle files") ;;;
  (* Copy native addons *)
  copyNativeAddons platformKey bundleDestDir ;;;
  (* Create launcher scripts *)
  createLauncher platformDir isWindows ;;;
  console_log "  Created launcher scripts" ;;;
  (* Create README *)
  writeFileSync (join platformDir "README.txt") (readmeContent isWindows) default_mode ;;;
  console_log (nl +:+ "Package ready: " +:+ path_str platformDir) ;;;
  ret platformDir.

(** The dispatch on the arguments at the end of the script. *)
Definition buildPackages (args : list string) : M unit :=
  let specificPlatform := first_positional args in
  let buildAll := includes "--all" args in
  if buildAll then
    console_log "Building packages for all platforms..." ;;;
    for_of (keys platforms) (λ platform, _ <- buildPackage platform ;; ret tt)
  else if truthy specificPlatform
            && truthy (get platforms (default "" specificPlatform)) then
    _ <- buildPackage (default "" specificPlatform) ;; ret tt
  else if truthy specificPlatform then
    console_error ("Unknown platform: " +:+ default "" specificPlatform) ;;;
    console_log ("Available: " +:+ join_with ", " (keys platforms)) ;;;
    exit 1
  else
    _ <- buildPackage (getCurrentPlatform (os_platform h) (os_arch h)) ;; ret tt.

(** The statements of the module, with [args = process.argv.slice(2)] *)
Definition script (args : list string) : M unit :=
  _ <- ensureBundle ;;
  mkdirSync distDir ;;;
  buildPackages args ;;;
  console_log (nl +:+ "Done! Packages are in dist-standalone/") ;;;
  console_log "Note: Users need Node.js 20+ installed to run these packages.".

End Host.
End Standalone.

(** ** Sample hosts and worlds *)

(** A child process that succeeds and leaves the file system alone. *)
Definition quiet_child : list event → string → list string → filesystem
                         → spawn_result * filesystem :=
  λ _ _ _ f, (SpawnResult (Some 0%Z) "1.1.0", f).

(** A child process that fails with status 1. *)
Definition failing_child : list event → string → list string → filesystem
                           → spawn_result * filesystem :=
  λ _ _ _ f, (SpawnResult (Some 1%Z) "", f).

Definition linux_host : host := Host ["repo"] "linux" "x64" quiet_child.
Definition broken_host : host := Host ["repo"] "linux" "x64" failing_child.

(** A checkout with the bundle built and nothing else. *)
Definition fs_bundle : filesystem :=
  <[ ["repo"; "bundle"; "gemini.js"] := File "bundle" 420%Z ]>
  (<[ ["repo"; "bundle"] := Dir ]>
  (<[ ["repo"] := Dir ]> ∅)).

(** The same with an executable left by an earlier single-file build. *)
Definition fs_stale : filesystem :=
  <[ ["repo"; "dist-single"; "linux-x64"; "gsharp"] := File "old" 493%Z ]>
  (<[ ["repo"; "dist-single"; "linux-x64"] := Dir ]>
  (<[ ["repo"; "dist-single"] := Dir ]> fs_bundle)).

(** The bundle built and two package directories already there, one of
    them with a file that no build writes. *)
Definition fs_packages : filesystem :=
  <[ ["repo"; "dist-standalone"; "gsharp-linux-x64"; "notes.txt"] := File "keep" 420%Z ]>
  (<[ ["repo"; "dist-standalone"; "gsharp-linux-x64"] := Dir ]>
  (<[ ["repo"; "dist-standalone"; "gsharp-mac-arm64"] := Dir ]>
  (<[ ["repo"; "dist-standalone"] := Dir ]> fs_bundle))).

(** The bundle built, and a regular file where the package directory of
    the second platform of the table would go. *)
Definition fs_blocked : filesystem :=
  <[ ["repo"; "dist-standalone"; "gsharp-linux-arm64"] := File "" 420%Z ]>
  (<[ ["repo"; "dist-standalone"] := Dir ]> fs_bundle).

(** A checkout without the bundle. *)
Definition fs_bare : filesystem := <[ ["repo"] := Dir ]> ∅.

Definition start (f : filesystem) : world := World f [].

(** ** Vocabulary of the statements *)

(** The directories the script asked to create, in order. *)
Definition mkdirs (evs : list event) : list (list string) :=
  omap (λ e, match e with EvMkdir p => Some p | _ => None end) evs.



(** Every entry of the file system sits in a directory. *)
Definition well_formed (f : filesystem) : Prop :=
  map_Forall (λ p _, is_dir f (removelast p) = true) f.

(** Child processes leave the file system well formed. *)
Definition tidy (h : host) : Prop :=
  ∀ tr cmd args f, well_formed f → well_formed (child h tr cmd args f).2.


(** [steps R m]: whatever the world, running [m] moves it along [R]. *)
Definition steps {A} (R : world → world → Prop) (m : M A) : Prop :=
  ∀ w, R w (m w).2.

(** The events added are all in [P]. *)
Definition emits (P : event → Prop) (w w' : world) : Prop :=
  ∃ evs, trace w' = trace w ++ evs ∧ Forall P evs.

(** A relation between file systems, read between worlds. *)
Definition on_fs (Rf : filesystem → filesystem → Prop) (w w' : world) : Prop :=
  Rf (fs w) (fs w').

(** No entry of the file system disappears. *)
Definition kept (f f' : filesystem) : Prop :=
  ∀ p, is_Some (f !! p) → is_Some (f' !! p).

Definition keeps : world → world → Prop := on_fs kept.

(** The entries directly inside [dir] afterwards were there before or have
    their name in [names]. *)
Definition added (dir : list string) (names : list string) (f f' : filesystem) : Prop :=
  ∀ name, is_Some (f' !! entry dir name) →
          is_Some (f !! entry dir name) ∨ name ∈ names.

Definition adds (dir : list string) (names : list string) : world → world → Prop :=
  on_fs (added dir names).

(** A file copy, if it is one, puts its file directly inside [dir]. *)
Definition copies_into (dir : list string) (e : event) : Prop :=
  match e with
  | EvCopy _ dst => ∃ file, dst = entry dir file
  | _ => True
  end.

(** [exits P m]: when [m] ends in [process.exit], the code is in [P]. *)
Definition exits {A} (P : Z → Prop) (m : M A) : Prop :=
  ∀ w c, (m w).1 = Exit c → P c.

(** [m] never calls [process.exit]. *)
Definition no_exit {A} (m : M A) : Prop := exits (λ _, False) m.

(** What [main] of the single-file script does after the cleaning step:
    the bundle locator, the builds, the closing message. *)
Definition single_after_clean (h : host) (args : list string) : M unit :=
  bundlePath <- SingleFile.ensureBundle h ;;
  SingleFile.buildExecutables h args bundlePath ;;;
  console_log (nl +:+ "Done! Single-file executables are in dist-single/").

(** The names of the two launchers. *)
Definition launcher_names (isWindows : bool) : list string :=
  if isWindows then ["gsharp.cmd"; "gemini-sharp.cmd"] else ["gsharp"; "gemini-sharp"].

(** The entries a standalone build puts in the package root. *)
Definition package_entries (isWindows : bool) : list string :=
  "bundle" :: launcher_names isWindows ++ ["README.txt"].

(** * Properties *)

(** ** The monad *)

Lemma bind_ok {A B} (m : M A) (k : A → M B) w a w' :
  m w = (Ok a, w') → bind m k w = k a w'.
Proof. unfold bind. by intros ->. Qed.

Lemma bind_throw {A B} (m : M A) (k : A → M B) w e w' :
  m w = (Throw e, w') → bind m k w = (Throw e, w').
Proof. unfold bind. by intros ->. Qed.

Lemma bind_exit {A B} (m : M A) (k : A → M B) w c w' :
  m w = (Exit c, w') → bind m k w = (Exit c, w').
Proof. unfold bind. by intros ->. Qed.

Lemma bind_assoc {A B C} (m : M A) (k : A → M B) (k' : B → M C) w :
  bind (bind m k) k' w = bind m (λ a, bind (k a) k') w.
Proof. unfold bind. by destruct (m w) as [[a|e|c] w']. Qed.

Lemma for_of_app {A} (xs ys : list A) (body : A → M unit) w :
  for_of (xs ++ ys) body w = bind (for_of xs body) (λ _, for_of ys body) w.
Proof.
  revert w. induction xs as [|x xs IH]; intros w; simpl.
  - done.
  - unfold bind in *. destruct (body x w) as [[[]|e|c] w1]; [apply IH|done..].
Qed.

(** A loop stops at the first turn that does not complete, in the world
    that turn left. *)
Lemma for_of_stops {A} (xs ys : list A) (x : A) (body : A → M unit) w w1 r w2 :
  for_of xs body w = (Ok tt, w1) →
  body x w1 = (r, w2) → (∀ u, r ≠ Ok u) →
  for_of (xs ++ x :: ys) body w = (r, w2).
Proof.
  intros Hxs Hx Hr. rewrite for_of_app. rewrite (bind_ok _ _ _ _ _ Hxs).
  simpl. unfold bind. rewrite Hx. destruct r; [by destruct (Hr a)|done..].
Qed.

Lemma run_ok {A} (m : M A) w a : (m w).1 = Ok a → m w = (Ok a, (m w).2).
Proof. destruct (m w) as [r w']. simpl. by intros ->. Qed.

Lemma bind_ok_inv {A B} (m : M A) (k : A → M B) w b w' :
  bind m k w = (Ok b, w') → ∃ a w1, m w = (Ok a, w1) ∧ k a w1 = (Ok b, w').
Proof.
  unfold bind. destruct (m w) as [[a|e|c] w1]; [|done..]. intros H. by exists a, w1.
Qed.


Lemma steps_run {A} (R : world → world → Prop) (m : M A) w r w' :
  steps R m → m w = (r, w') → R w w'.
Proof. intros Hm Hrun. specialize (Hm w). by rewrite Hrun in Hm. Qed.

(** ** Paths *)

Lemma entry_inj dir a b : entry dir a = entry dir b → a = b.
Proof. unfold entry. intros H. by simplify_list_eq. Qed.

Lemma removelast_entry dir a : removelast (entry dir a) = dir.
Proof. apply removelast_last. Qed.

Lemma entry_not_nil dir a : entry dir a ≠ [].
Proof. unfold entry. by destruct dir. Qed.

Lemma join_single base s : segments s = [s] → join base s = entry base s.
Proof. unfold join, entry. by intros ->. Qed.

(** An entry two levels down is not an entry one level down. *)
Lemma entry_entry_ne dir a b name : entry (entry dir a) b ≠ entry dir name.
Proof.
  unfold entry. intros H. apply (f_equal List.length) in H.
  rewrite !length_app in H. simpl in H. lia.
Qed.

Lemma entry_prefix_entry dir a b : entry dir a `prefix_of` entry dir b → a = b.
Proof.
  unfold entry. intros H%prefix_app_inv. destruct H as [k Hk]. by injection Hk.
Qed.

Lemma not_prefix_longer (d q : list string) : q ≠ [] → ¬ (d ++ q `prefix_of` d).
Proof.
  intros Hq Hpre. apply prefix_length in Hpre. rewrite length_app in Hpre.
  destruct q; [done|]. simpl in Hpre. lia.
Qed.

Lemma removelast_ne (p : list string) : p ≠ [] → removelast p ≠ p.
Proof.
  intros Hp. destruct (exists_last Hp) as (q & a & ->).
  rewrite removelast_last. intros H. apply (f_equal List.length) in H.
  rewrite length_app in H. simpl in H. lia.
Qed.

Lemma removelast_prefix (q : list string) : removelast q `prefix_of` q.
Proof.
  destruct (decide (q = [])) as [->|Hq]; [done|].
  destruct (exists_last Hq) as (r & a & ->). rewrite removelast_last.
  by apply prefix_app_r.
Qed.

(** ** One step of a script *)

Create Rewrite HintDb step.

Lemma step_ret {A B} (a : A) (k : A → M B) w : bind (ret a) k w = k a w.
Proof. reflexivity. Qed.

Lemma step_throw {A B} e (k : A → M B) w : bind (throw e) k w = (Throw e, w).
Proof. reflexivity. Qed.

Lemma step_exit {A B} c (k : A → M B) w : bind (exit c) k w = (Exit c, w).
Proof. reflexivity. Qed.

Lemma step_log {B} s (k : unit → M B) w :
  bind (console_log s) k w = k tt (emit (EvLog s) w).
Proof. reflexivity. Qed.

Lemma step_error {B} s (k : unit → M B) w :
  bind (console_error s) k w = k tt (emit (EvError s) w).
Proof. reflexivity. Qed.

Lemma step_warn {B} s (k : unit → M B) w :
  bind (console_warn s) k w = k tt (emit (EvWarn s) w).
Proof. reflexivity. Qed.

Lemma step_exists {B} p (k : bool → M B) w :
  bind (existsSync p) k w
  = k (exists_in (fs w) p) (emit (EvExists p (exists_in (fs w) p)) w).
Proof. reflexivity. Qed.

Lemma step_spawn {B} h cmd args (k : spawn_result → M B) w :
  bind (spawnSync h cmd args) k w
  = k (child h (trace w) cmd args (fs w)).1
      (World (child h (trace w) cmd args (fs w)).2 (trace w ++ [EvSpawn cmd args])).
Proof. reflexivity. Qed.

Lemma step_readdir {B} p (k : list string → M B) w :
  bind (readdirSync p) k w
  = if is_dir (fs w) p then k (children (fs w) p) (emit (EvReaddir p) w)
    else (Throw "ENOTDIR: not a directory, scandir", emit (EvReaddir p) w).
Proof. unfold bind, readdirSync. by destruct (is_dir (fs w) p). Qed.

Lemma step_mkdir {B} p (k : unit → M B) w :
  bind (mkdirSync p) k w
  = match mkdir_p (fs w) [] p with
    | Some f' => k tt (World f' (trace w ++ [EvMkdir p]))
    | None => (Throw "EEXIST: file already exists, mkdir", emit (EvMkdir p) w)
    end.
Proof. unfold bind, mkdirSync. by destruct (mkdir_p (fs w) [] p). Qed.

Lemma step_rm {B} p (k : unit → M B) w :
  bind (rmSync p) k w
  = if exists_in (fs w) p then k tt (World (rm_r (fs w) p) (trace w ++ [EvRm p]))
    else (Throw "ENOENT: no such file or directory, rm", emit (EvRm p) w).
Proof. unfold bind, rmSync. by destruct (exists_in (fs w) p). Qed.

Lemma step_copy {B} src dst (k : unit → M B) w :
  bind (copyFileSync src dst) k w
  = match copy_file (fs w) src dst with
    | Some f' => k tt (World f' (trace w ++ [EvCopy src dst]))
    | None => (Throw "ENOENT: no such file or directory, copyfile",
               emit (EvCopy src dst) w)
    end.
Proof. unfold bind, copyFileSync. by destruct (copy_file (fs w) src dst). Qed.

Lemma step_write {B} p c mode (k : unit → M B) w :
  bind (writeFileSync p c mode) k w
  = match write_file (fs w) p c mode with
    | Some f' => k tt (World f' (trace w ++ [EvWriteFile p c]))
    | None => (Throw "ENOENT: no such file or directory, open",
               emit (EvWriteFile p c) w)
    end.
Proof. unfold bind, writeFileSync. by destruct (write_file (fs w) p c mode). Qed.

Lemma fs_emit e w : fs (emit e w) = fs w.
Proof. reflexivity. Qed.

Lemma trace_emit e w : trace (emit e w) = trace w ++ [e].
Proof. reflexivity. Qed.

#[global] Hint Rewrite @bind_assoc @step_ret @step_throw @step_exit @step_log @step_error
  @step_warn @step_exists @step_spawn @step_readdir @step_mkdir @step_rm @step_copy
  @step_write fs_emit trace_emit : step.

Ltac step :=
  repeat (progress (cbn [negb andb orb fst snd fs trace]; autorewrite with step)).

(** ** Table lookups *)

Lemma get_own {A} (obj : list (string * A)) key v :
  own_property obj key = Some v → get obj key = Own v.
Proof. unfold get. by intros ->. Qed.

Lemma own_property_keys {A} (obj : list (string * A)) key :
  key ∈ keys obj ↔ is_Some (own_property obj key).
Proof.
  induction obj as [|[k v] obj IH]; simpl.
  - split; [by intros ?%elem_of_nil | by intros [? ?]].
  - rewrite elem_of_cons, IH. case_decide as Hk; simpl.
    + split; [by eexists | by left].
    + split; [intros [->|H]; [done|apply H] | by right].
Qed.

Lemma get_undefined {A} (obj : list (string * A)) key :
  key ∉ keys obj → key ∉ object_prototype → get obj key = Undefined.
Proof.
  intros Hk Hp. unfold get.
  destruct (own_property obj key) eqn:E.
  - destruct Hk. apply own_property_keys. by eexists.
  - by rewrite bool_decide_eq_false_2.
Qed.

(** The two tables of the single-file script have the same keys: where the
    output name is a string, so is the compile target. *)
Lemma single_tables_agree key name :
  get SingleFile.outputNames key = Own name →
  ∃ target, get SingleFile.targets key = Own target.
Proof.
  unfold get. simpl. intros H.
  repeat case_decide; simplify_eq; eauto; by destruct (bool_decide _).
Qed.

Lemma ptyMap_truthy platform pkg :
  own_property SingleFile.ptyMap platform = Some pkg → truthy pkg = true.
Proof.
  unfold SingleFile.ptyMap. simpl. intros H.
  repeat case_decide; simplify_eq; reflexivity.
Qed.

(** ** File-system operations *)

Lemma is_dir_exists f p : is_dir f p = true → exists_in f p = true.
Proof. unfold is_dir, exists_in. destruct p; [done|]. by destruct (f !! _) as [[]|]. Qed.

Lemma exists_in_false f p : p ≠ [] → exists_in f p = false → f !! p = None.
Proof. unfold exists_in. destruct p; [done|]. by destruct (f !! _). Qed.

Lemma write_file_lookup f p c mode f' :
  write_file f p c mode = Some f' →
  (∃ m, f' !! p = Some (File c m)) ∧ (∀ q, q ≠ p → f' !! q = f !! q) ∧
  is_dir f (removelast p) = true ∧ p ≠ [].
Proof.
  unfold write_file. destruct p as [|s p]; [done|].
  destruct (is_dir f (removelast (s :: p))) eqn:Hd; [|done].
  destruct (f !! (s :: p)) as [[|c0 m0]|] eqn:Hp; [done| |]; intros [= <-].
  - repeat split; [|intros q Hq; by rewrite lookup_insert_ne|done].
    exists m0. by rewrite lookup_insert_eq.
  - repeat split; [|intros q Hq; by rewrite lookup_insert_ne|done].
    exists mode. by rewrite lookup_insert_eq.
Qed.

(** Writing the same content once more changes nothing. *)
Lemma write_file_again f p c mode f' :
  write_file f p c mode = Some f' → write_file f' p c mode = Some f'.
Proof.
  intros H. destruct (write_file_lookup _ _ _ _ _ H) as ([m Hm] & Hq & Hd & Hp).
  unfold write_file. destruct p as [|s p]; [done|].
  assert (is_dir f' (removelast (s :: p)) = true) as ->.
  { unfold is_dir in *. destruct (removelast (s :: p)) eqn:E; [done|].
    rewrite Hq; [done|]. rewrite <- E. by apply removelast_ne. }
  rewrite Hm. f_equal. by apply insert_id.
Qed.

(** ** Directories *)

Lemma mkdir_p_subseteq f pre rest f' : mkdir_p f pre rest = Some f' → f ⊆ f'.
Proof.
  revert f pre. induction rest as [|s rest IH]; intros f pre; simpl.
  - by intros [= <-].
  - destruct (f !! (pre ++ [s])) as [[|c m]|] eqn:Hp; [apply IH|done|].
    intros H. etrans; [|by eapply IH]. by apply insert_subseteq.
Qed.

Lemma mkdir_p_dir f pre rest f' :
  mkdir_p f pre rest = Some f' → rest ≠ [] → f' !! (pre ++ rest) = Some Dir.
Proof.
  revert f pre. induction rest as [|s rest IH]; intros f pre; simpl; [done|].
  intros H _.
  replace (pre ++ s :: rest) with ((pre ++ [s]) ++ rest) by (by rewrite <- app_assoc).
  destruct (f !! (pre ++ [s])) as [[|c m]|] eqn:Hp; [|done|].
  - destruct rest as [|s' rest]; [|by apply (IH f)].
    simpl in H. injection H as <-. by rewrite app_nil_r.
  - destruct rest as [|s' rest]; [|by apply (IH (<[pre ++ [s] := Dir]> f))].
    simpl in H. injection H as <-. by rewrite app_nil_r, lookup_insert_eq.
Qed.

(** Only the directory asked for and its ancestors are created. *)
Lemma mkdir_p_other f pre rest f' q :
  mkdir_p f pre rest = Some f' → ¬ (q `prefix_of` pre ++ rest) → f' !! q = f !! q.
Proof.
  revert f pre. induction rest as [|s rest IH]; intros f pre; simpl.
  - by intros [= <-].
  - replace (pre ++ s :: rest) with ((pre ++ [s]) ++ rest) by (by rewrite <- app_assoc).
    intros H Hq.
    destruct (f !! (pre ++ [s])) as [[|c m]|] eqn:Hp; [by apply (IH f (pre ++ [s]))|done|].
    rewrite (IH _ _ H Hq). apply lookup_insert_ne.
    intros <-. apply Hq. by apply prefix_app_r.
Qed.

Lemma rm_r_lookup f p q :
  rm_r f p !! q = if decide (p `prefix_of` q) then None else f !! q.
Proof.
  unfold rm_r. case_decide as Hp.
  - apply map_lookup_filter_None. right. intros n _ Hn. by apply Hn.
  - destruct (f !! q) as [n|] eqn:Hq.
    + by apply map_lookup_filter_Some.
    + apply map_lookup_filter_None. by left.
Qed.

Lemma copy_file_lookup f src dst f' :
  copy_file f src dst = Some f' →
  ∃ c m, f !! src = Some (File c m) ∧ f' = <[dst := File c m]> f ∧
         f !! dst ≠ Some Dir ∧ is_dir f (removelast dst) = true ∧ dst ≠ [].
Proof.
  unfold copy_file. destruct (f !! src) as [[|c m]|]; [done| |done].
  destruct dst as [|s dst]; [done|].
  destruct (is_dir f (removelast (s :: dst))); [|done].
  destruct (f !! (s :: dst)) as [[|c0 m0]|] eqn:Hd; [done|..];
    intros [= <-]; by exists c, m.
Qed.

Lemma child_name_spec p k n : child_name p k = Some n ↔ k = entry p n.
Proof.
  unfold child_name, entry. split.
  - destruct (reverse k) as [|n' r] eqn:E; [done|].
    case_decide as Hr; [|done]. intros [= <-]. subst p.
    rewrite <- (reverse_involutive k), E. by rewrite reverse_cons.
  - intros ->. rewrite reverse_app. simpl. by rewrite decide_True by apply reverse_involutive.
Qed.

(** The names listed for a directory are those of the entries inside it. *)
Lemma elem_of_children f p n : n ∈ children f p ↔ is_Some (f !! entry p n).
Proof.
  unfold children. rewrite list_elem_of_omap. split.
  - intros ([k v] & Hin & Hname). apply elem_of_map_to_list in Hin.
    apply child_name_spec in Hname. simpl in Hname. subst k. by exists v.
  - intros [v Hv]. exists (entry p n, v). split.
    + by apply elem_of_map_to_list.
    + by apply child_name_spec.
Qed.

(** ** Well-formed file systems *)

(** Putting an entry in a directory keeps the file system well formed, as
    long as no directory is turned into a file. *)
Lemma well_formed_insert f p n :
  well_formed f → is_dir f (removelast p) = true →
  (n = Dir ∨ f !! p ≠ Some Dir) →
  well_formed (<[p := n]> f).
Proof.
  intros Hwf Hparent Hn q m Hq.
  assert (Hstay : ∀ r, is_dir f r = true → is_dir (<[p := n]> f) r = true).
  { intros r Hr. unfold is_dir in *. destruct r as [|s r]; [done|].
    destruct (decide (p = s :: r)) as [->|Hne]; [|by rewrite lookup_insert_ne].
    rewrite lookup_insert_eq. destruct Hn as [->|Hn]; [done|].
    by destruct (f !! (s :: r)) as [[|]|]. }
  apply Hstay. destruct (decide (p = q)) as [<-|Hne]; [done|].
  rewrite lookup_insert_ne in Hq by done. by apply (Hwf q m).
Qed.

Lemma well_formed_mkdir_p f pre rest f' :
  well_formed f → is_dir f pre = true → mkdir_p f pre rest = Some f' →
  well_formed f'.
Proof.
  revert f pre. induction rest as [|s rest IH]; intros f pre Hwf Hpre; simpl.
  - by intros [= <-].
  - destruct (f !! (pre ++ [s])) as [[|c m]|] eqn:Hp; [|done|].
    + apply IH; [done|]. unfold is_dir. rewrite Hp. by destruct (pre ++ [s]).
    + apply IH.
      * apply well_formed_insert; [done|by rewrite removelast_last|by left].
      * unfold is_dir. rewrite lookup_insert_eq. by destruct (pre ++ [s]).
Qed.

Lemma well_formed_rm_r f p : well_formed f → well_formed (rm_r f p).
Proof.
  intros Hwf q n Hq. rewrite rm_r_lookup in Hq. case_decide as Hpq; [done|].
  pose proof (Hwf q n Hq) as Hd. unfold is_dir in *.
  destruct (removelast q) as [|s r] eqn:E; [done|].
  rewrite rm_r_lookup. rewrite decide_False; [done|].
  intros Hpre. apply Hpq. etrans; [exact Hpre|]. rewrite <- E. apply removelast_prefix.
Qed.

(** In a well-formed file system nothing lies below a missing entry. *)
Lemma well_formed_below f d q :
  well_formed f → d ≠ [] → f !! d = None → f !! (d ++ q) = None.
Proof.
  intros Hwf Hd Hnone. induction q as [|a q IH] using rev_ind.
  - by rewrite app_nil_r.
  - destruct (f !! (d ++ q ++ [a])) as [n|] eqn:E; [|done].
    apply Hwf in E. rewrite app_assoc, removelast_last in E.
    unfold is_dir in E. rewrite IH in E. destruct (d ++ q) eqn:E'; [|done].
    by destruct d.
Qed.

(** ** Reasoning along a script *)

Lemma emits_preorder P : PreOrder (emits P).
Proof.
  split.
  - intros w. exists []. by rewrite app_nil_r.
  - intros w1 w2 w3 [e1 [H1 F1]] [e2 [H2 F2]]. exists (e1 ++ e2). split.
    + by rewrite H2, H1, app_assoc.
    + by apply Forall_app.
Qed.

Lemma kept_preorder : PreOrder kept.
Proof.
  split.
  - by intros f p.
  - intros f1 f2 f3 H1 H2 p Hp. by apply H2, H1.
Qed.

Lemma added_preorder dir names : PreOrder (added dir names).
Proof.
  split.
  - intros f name Hn. by left.
  - intros f1 f2 f3 H1 H2 name Hn.
    destruct (H2 name Hn) as [Hn2|Hin]; [by apply H1|by right].
Qed.

Lemma on_fs_preorder Rf : PreOrder Rf → PreOrder (on_fs Rf).
Proof.
  intros [Hrefl Htrans]. split.
  - intros w. apply Hrefl.
  - intros w1 w2 w3. apply Htrans.
Qed.

#[global] Existing Instances emits_preorder kept_preorder added_preorder on_fs_preorder.

Section Steps.
Context (R : world → world → Prop) `{!PreOrder R}.

Lemma steps_ret {A} (a : A) : steps R (ret a).
Proof. intros w. simpl. reflexivity. Qed.

Lemma steps_throw {A} e : steps R (@throw A e).
Proof. intros w. simpl. reflexivity. Qed.

Lemma steps_exit {A} c : steps R (@exit A c).
Proof. intros w. simpl. reflexivity. Qed.

Lemma steps_bind {A B} (m : M A) (k : A → M B) :
  steps R m → (∀ a, steps R (k a)) → steps R (bind m k).
Proof.
  intros Hm Hk w. unfold bind. specialize (Hm w).
  destruct (m w) as [[a|e|c] w1]; simpl in *; [|done..].
  etrans; [exact Hm|apply Hk].
Qed.

Lemma steps_try_catch {A} (m : M A) (handler : string → M A) :
  steps R m → (∀ e, steps R (handler e)) → steps R (try_catch m handler).
Proof.
  intros Hm Hh w. unfold try_catch. specialize (Hm w).
  destruct (m w) as [[a|e|c] w1]; simpl in *; [done| |done].
  etrans; [exact Hm|apply Hh].
Qed.

Lemma steps_for_of {A} (xs : list A) (body : A → M unit) :
  (∀ x, x ∈ xs → steps R (body x)) → steps R (for_of xs body).
Proof.
  induction xs as [|x xs IH]; intros Hb; simpl.
  - apply steps_ret.
  - apply steps_bind.
    + apply Hb. by left.
    + intros _. apply IH. intros y Hy. apply Hb. by right.
Qed.

Lemma steps_if {A} (b : bool) (m1 m2 : M A) :
  steps R m1 → steps R m2 → steps R (if b then m1 else m2).
Proof. by destruct b. Qed.

Lemma steps_join_property base v : steps R (join_property base v).
Proof. destruct v; [apply steps_ret|apply steps_throw..]. Qed.
End Steps.

Section Exits.
Context (P : Z → Prop).

Lemma exits_ret {A} (a : A) : exits P (ret a).
Proof. by intros w c. Qed.

Lemma exits_throw {A} e : exits P (@throw A e).
Proof. by intros w c. Qed.

Lemma exits_exit {A} c : P c → exits P (@exit A c).
Proof. intros Hc w c' [= <-]. done. Qed.

Lemma exits_bind {A B} (m : M A) (k : A → M B) :
  exits P m → (∀ a, exits P (k a)) → exits P (bind m k).
Proof.
  intros Hm Hk w c. unfold bind. specialize (Hm w).
  destruct (m w) as [[a|e|c'] w1]; simpl in *; [apply Hk|done|].
  intros [= ->]. by apply Hm.
Qed.

Lemma exits_try_catch {A} (m : M A) (handler : string → M A) :
  exits P m → (∀ e, exits P (handler e)) → exits P (try_catch m handler).
Proof.
  intros Hm Hh w c. unfold try_catch. specialize (Hm w).
  destruct (m w) as [[a|e|c'] w1]; simpl in *; [done|apply Hh|apply Hm].
Qed.

Lemma exits_for_of {A} (xs : list A) (body : A → M unit) :
  (∀ x, x ∈ xs → exits P (body x)) → exits P (for_of xs body).
Proof.
  induction xs as [|x xs IH]; intros Hb; simpl.
  - apply exits_ret.
  - apply exits_bind.
    + apply Hb. by left.
    + intros _. apply IH. intros y Hy. apply Hb. by right.
Qed.

Lemma exits_if {A} (b : bool) (m1 m2 : M A) :
  exits P m1 → exits P m2 → exits P (if b then m1 else m2).
Proof. by destruct b. Qed.

Lemma exits_join_property base v : exits P (join_property base v).
Proof. destruct v; [apply exits_ret|apply exits_throw..]. Qed.

Lemma exits_console_log s : exits P (console_log s).
Proof. by intros w c. Qed.

Lemma exits_console_error s : exits P (console_error s).
Proof. by intros w c. Qed.

Lemma exits_console_warn s : exits P (console_warn s).
Proof. by intros w c. Qed.

Lemma exits_existsSync p : exits P (existsSync p).
Proof. by intros w c. Qed.

Lemma exits_spawnSync h cmd args : exits P (spawnSync h cmd args).
Proof. by intros w c. Qed.

Lemma exits_mkdirSync p : exits P (mkdirSync p).
Proof. intros w c. unfold mkdirSync. by destruct (mkdir_p _ _ _). Qed.

Lemma exits_rmSync p : exits P (rmSync p).
Proof. intros w c. unfold rmSync. by destruct (exists_in _ _). Qed.

Lemma exits_readdirSync p : exits P (readdirSync p).
Proof. intros w c. unfold readdirSync. by destruct (is_dir _ _). Qed.

Lemma exits_copyFileSync src dst : exits P (copyFileSync src dst).
Proof. intros w c. unfold copyFileSync. by destruct (copy_file _ _ _). Qed.

Lemma exits_writeFileSync p s mode : exits P (writeFileSync p s mode).
Proof. intros w c. unfold writeFileSync. by destruct (write_file _ _ _ _). Qed.
End Exits.

Create HintDb exits.
#[global] Hint Resolve exits_ret exits_throw exits_join_property exits_console_log
  exits_console_error exits_console_warn exits_existsSync exits_spawnSync
  exits_mkdirSync exits_rmSync exits_readdirSync exits_copyFileSync
  exits_writeFileSync : exits.

(** Breaks a goal [exits P m] down along the structure of [m]. *)
Ltac exits_auto :=
  repeat first
    [ progress cbv zeta
    | solve [auto with exits]
    | apply exits_bind; [|intros ?]
    | apply exits_try_catch; [|intros ?]
    | apply exits_for_of; intros ? ?
    | apply exits_if
    | apply exits_exit ].

(** The events of the script's own calls. *)
Section Emits.
Context (P : event → Prop).

Lemma emits_one e w f : P e → emits P w (World f (trace w ++ [e])).
Proof. intros He. exists [e]. split; [done|]. by apply Forall_singleton. Qed.

Lemma emits_console_log s : P (EvLog s) → steps (emits P) (console_log s).
Proof. intros H w. by apply emits_one. Qed.

Lemma emits_console_error s : P (EvError s) → steps (emits P) (console_error s).
Proof. intros H w. by apply emits_one. Qed.

Lemma emits_console_warn s : P (EvWarn s) → steps (emits P) (console_warn s).
Proof. intros H w. by apply emits_one. Qed.

Lemma emits_existsSync p : (∀ b, P (EvExists p b)) → steps (emits P) (existsSync p).
Proof. intros H w. by apply emits_one. Qed.

Lemma emits_spawnSync h cmd args :
  P (EvSpawn cmd args) → steps (emits P) (spawnSync h cmd args).
Proof. intros H w. by apply emits_one. Qed.

Lemma emits_mkdirSync p : P (EvMkdir p) → steps (emits P) (mkdirSync p).
Proof.
  intros H w. unfold mkdirSync. destruct (mkdir_p _ _ _); by apply emits_one.
Qed.

Lemma emits_rmSync p : P (EvRm p) → steps (emits P) (rmSync p).
Proof.
  intros H w. unfold rmSync. destruct (exists_in _ _); by apply emits_one.
Qed.

Lemma emits_readdirSync p : P (EvReaddir p) → steps (emits P) (readdirSync p).
Proof.
  intros H w. unfold readdirSync. destruct (is_dir _ _); by apply emits_one.
Qed.

Lemma emits_copyFileSync src dst :
  P (EvCopy src dst) → steps (emits P) (copyFileSync src dst).
Proof.
  intros H w. unfold copyFileSync. destruct (copy_file _ _ _); by apply emits_one.
Qed.

Lemma emits_writeFileSync p s mode :
  P (EvWriteFile p s) → steps (emits P) (writeFileSync p s mode).
Proof.
  intros H w. unfold writeFileSync. destruct (write_file _ _ _ _); by apply emits_one.
Qed.
End Emits.

(** ** What a script does to the file system *)

Section OnFs.
Context (Rf : filesystem → filesystem → Prop) `{!PreOrder Rf}.

Lemma on_fs_same w w' : fs w' = fs w → on_fs Rf w w'.
Proof. unfold on_fs. intros ->. reflexivity. Qed.

Lemma on_fs_console_log s : steps (on_fs Rf) (console_log s).
Proof. intros w. by apply on_fs_same. Qed.

Lemma on_fs_console_error s : steps (on_fs Rf) (console_error s).
Proof. intros w. by apply on_fs_same. Qed.

Lemma on_fs_console_warn s : steps (on_fs Rf) (console_warn s).
Proof. intros w. by apply on_fs_same. Qed.

Lemma on_fs_existsSync p : steps (on_fs Rf) (existsSync p).
Proof. intros w. by apply on_fs_same. Qed.

Lemma on_fs_readdirSync p : steps (on_fs Rf) (readdirSync p).
Proof. intros w. unfold readdirSync. destruct (is_dir _ _); by apply on_fs_same. Qed.

Lemma on_fs_mkdirSync p :
  (∀ f f', mkdir_p f [] p = Some f' → Rf f f') → steps (on_fs Rf) (mkdirSync p).
Proof.
  intros H w. unfold mkdirSync. destruct (mkdir_p _ _ _) eqn:E.
  - by apply H.
  - by apply on_fs_same.
Qed.

Lemma on_fs_copyFileSync src dst :
  (∀ f f', copy_file f src dst = Some f' → Rf f f') →
  steps (on_fs Rf) (copyFileSync src dst).
Proof.
  intros H w. unfold copyFileSync. destruct (copy_file _ _ _) eqn:E.
  - by apply H.
  - by apply on_fs_same.
Qed.

Lemma on_fs_writeFileSync p c mode :
  (∀ f f', write_file f p c mode = Some f' → Rf f f') →
  steps (on_fs Rf) (writeFileSync p c mode).
Proof.
  intros H w. unfold writeFileSync. destruct (write_file _ _ _ _) eqn:E.
  - by apply H.
  - by apply on_fs_same.
Qed.

Lemma on_fs_spawnSync h cmd args :
  (∀ tr f, Rf f (child h tr cmd args f).2) → steps (on_fs Rf) (spawnSync h cmd args).
Proof. intros H w. apply H. Qed.
End OnFs.

Lemma kept_insert f p n : kept f (<[p := n]> f).
Proof.
  intros q Hq. destruct (decide (p = q)) as [->|Hne].
  - rewrite lookup_insert_eq. by eexists.
  - by rewrite lookup_insert_ne.
Qed.

Lemma kept_mkdir f pre p f' : mkdir_p f pre p = Some f' → kept f f'.
Proof.
  intros H q [n Hn]. exists n. eapply lookup_weaken; [exact Hn|].
  by eapply mkdir_p_subseteq.
Qed.

Lemma kept_copy f src dst f' : copy_file f src dst = Some f' → kept f f'.
Proof.
  intros H. destruct (copy_file_lookup _ _ _ _ H) as (c & m & _ & -> & _).
  apply kept_insert.
Qed.

Lemma kept_write f p c mode f' : write_file f p c mode = Some f' → kept f f'.
Proof.
  intros H q Hq. destruct (write_file_lookup _ _ _ _ _ H) as ([m Hm] & Hother & _).
  destruct (decide (q = p)) as [->|Hne]; [by eexists|by rewrite Hother].
Qed.

Lemma added_insert dir names f p n :
  (∀ name, p = entry dir name → name ∈ names) → added dir names f (<[p := n]> f).
Proof.
  intros H name Hn. destruct (decide (p = entry dir name)) as [->|Hne].
  - right. by apply H.
  - left. by rewrite lookup_insert_ne in Hn.
Qed.

Lemma added_mkdir dir names f p f' :
  (∀ name, entry dir name `prefix_of` p → name ∈ names) →
  mkdir_p f [] p = Some f' → added dir names f f'.
Proof.
  intros H Hmk name Hn.
  destruct (decide (entry dir name `prefix_of` p)) as [Hpre|Hpre].
  - right. by apply H.
  - left. by rewrite (mkdir_p_other _ [] p _ _ Hmk) in Hn.
Qed.

Lemma added_copy dir names f src dst f' :
  (∀ name, dst = entry dir name → name ∈ names) →
  copy_file f src dst = Some f' → added dir names f f'.
Proof.
  intros H Hcp. destruct (copy_file_lookup _ _ _ _ Hcp) as (c & m & _ & -> & _).
  by apply added_insert.
Qed.

Lemma added_write dir names f p c mode f' :
  (∀ name, p = entry dir name → name ∈ names) →
  write_file f p c mode = Some f' → added dir names f f'.
Proof.
  intros H Hw name Hn. destruct (write_file_lookup _ _ _ _ _ Hw) as (_ & Hother & _).
  destruct (decide (entry dir name = p)) as [<-|Hne].
  - right. by apply H.
  - left. by rewrite Hother in Hn.
Qed.

(** Breaks a goal [steps R m] down along the structure of [m], for the
    relations [emits P] and [on_fs Rf]; what is left are the conditions on
    the events and on the changes to the file system. *)
Ltac steps_step :=
  match goal with
  | |- PreOrder _ => apply _
  | |- steps ?R (ret _) => refine (steps_ret R _)
  | |- steps ?R (throw _) => refine (steps_throw R _)
  | |- steps ?R (exit _) => refine (steps_exit R _)
  | |- steps ?R (join_property _ _) => refine (steps_join_property R _ _)
  | |- steps ?R (bind _ _) => refine (steps_bind R _ _ _ _); [|intros ?]
  | |- steps ?R (try_catch _ _) => refine (steps_try_catch R _ _ _ _); [|intros ?]
  | |- steps ?R (for_of _ _) => refine (steps_for_of R _ _ _); intros ? ?
  | |- steps ?R (if _ then _ else _) => apply steps_if
  | |- steps (emits _) (console_log _) => apply emits_console_log
  | |- steps (emits _) (console_error _) => apply emits_console_error
  | |- steps (emits _) (console_warn _) => apply emits_console_warn
  | |- steps (emits _) (existsSync _) => apply emits_existsSync; intros ?
  | |- steps (emits _) (spawnSync _ _ _) => apply emits_spawnSync
  | |- steps (emits _) (mkdirSync _) => apply emits_mkdirSync
  | |- steps (emits _) (rmSync _) => apply emits_rmSync
  | |- steps (emits _) (readdirSync _) => apply emits_readdirSync
  | |- steps (emits _) (copyFileSync _ _) => apply emits_copyFileSync
  | |- steps (emits _) (writeFileSync _ _ _) => apply emits_writeFileSync
  | |- steps (on_fs ?Rf) (console_log _) => refine (on_fs_console_log Rf _)
  | |- steps (on_fs ?Rf) (console_error _) => refine (on_fs_console_error Rf _)
  | |- steps (on_fs ?Rf) (console_warn _) => refine (on_fs_console_warn Rf _)
  | |- steps (on_fs ?Rf) (existsSync _) => refine (on_fs_existsSync Rf _)
  | |- steps (on_fs ?Rf) (readdirSync _) => refine (on_fs_readdirSync Rf _)
  | |- steps (on_fs ?Rf) (mkdirSync _) => refine (on_fs_mkdirSync Rf _ _); intros ? ? ?
  | |- steps (on_fs ?Rf) (copyFileSync _ _) =>
      refine (on_fs_copyFileSync Rf _ _ _); intros ? ? ?
  | |- steps (on_fs ?Rf) (writeFileSync _ _ _) =>
      refine (on_fs_writeFileSync Rf _ _ _ _); intros ? ? ?
  | |- steps (on_fs ?Rf) (spawnSync _ _ _) =>
      refine (on_fs_spawnSync Rf _ _ _ _); intros ? ?
  end.

Ltac steps_auto := repeat (cbv zeta; steps_step).

(** Reads [path.join(a, name)] as one more component where it is one. *)
Ltac fold_entries :=
  repeat match goal with
    | |- context [join ?a ?s] => progress change (join a s) with (entry a s)
    end.

(** ** Host-platform detection *)

(** C2: in both scripts the host platform key depends on the pair
    (operating system, architecture) alone, by the five-row table: win32
    gives win-x64 whatever the architecture; darwin gives mac-arm64 on
    arm64 and mac-x64 otherwise; any other system gives linux-arm64 on
    arm64 and linux-x64 otherwise. *)
Theorem getCurrentPlatform_table (os arch : string) :
  Standalone.getCurrentPlatform os arch = SingleFile.getCurrentPlatform os arch ∧
  (os = "win32" → SingleFile.getCurrentPlatform os arch = "win-x64") ∧
  (os = "darwin" → arch = "arm64" →
     SingleFile.getCurrentPlatform os arch = "mac-arm64") ∧
  (os = "darwin" → arch ≠ "arm64" →
     SingleFile.getCurrentPlatform os arch = "mac-x64") ∧
  (os ≠ "win32" → os ≠ "darwin" → arch = "arm64" →
     SingleFile.getCurrentPlatform os arch = "linux-arm64") ∧
  (os ≠ "win32" → os ≠ "darwin" → arch ≠ "arm64" →
     SingleFile.getCurrentPlatform os arch = "linux-x64").
Proof.
  unfold Standalone.getCurrentPlatform, SingleFile.getCurrentPlatform.
  repeat split; intros; repeat case_decide; congruence.
Qed.

Lemma getCurrentPlatform_table_witness :
  SingleFile.getCurrentPlatform "darwin" "arm64" = "mac-arm64" ∧
  SingleFile.getCurrentPlatform "freebsd" "x64" = "linux-x64" ∧
  SingleFile.getCurrentPlatform "win32" "arm64" = "win-x64".
Proof.
  split; [|split].
  - by apply (getCurrentPlatform_table "darwin" "arm64").
  - by apply (getCurrentPlatform_table "freebsd" "x64").
  - by apply (getCurrentPlatform_table "win32" "arm64").
Defined.

(** ** The bundle locator *)

Lemma failed_false r : status r = Some 0%Z → failed r = false.
Proof. unfold failed. intros ->. reflexivity. Qed.

Lemma failed_true r : status r ≠ Some 0%Z → failed r = true.
Proof. unfold failed. intros H. by rewrite bool_decide_eq_false_2. Qed.

(** Rewrites the test on a child's status that the goal shows, given what
    is known of it. *)
Ltac use_failed H :=
  match type of H with
  | failed _ = ?b =>
      repeat match goal with
        | |- context [failed ?r] =>
            progress (replace (failed r) with b by (symmetry; exact H))
        end
  end.

(** C4, as the code has it: the bundle locator checks that the bundle file
    exists; when it does, nothing else happens; when it does not, the
    external bundle command is started exactly once and the file is not
    looked at again: with exit status 0 the path is returned whether or
    not the file now exists, and any other status ends the whole run with
    exit code 1 (a thrown error in the single-file script, [process.exit]
    in the standalone one).  There is no second attempt. *)
Theorem ensureBundle_single_attempt h w :
  let bundleFile := join (join (rootDir h) "bundle") "gemini.js" in
  let present := exists_in (fs w) bundleFile in
  let w1 := emit (EvLog "> npm run bundle")
              (emit (EvLog "Bundle not found, building...")
                 (emit (EvExists bundleFile false) w)) in
  let npm := child h (trace w1) "npm" ["run"; "bundle"] (fs w) in
  let w2 := World npm.2 (trace w1 ++ [EvSpawn "npm" ["run"; "bundle"]]) in
  (present = true →
     SingleFile.ensureBundle h w = (Ok bundleFile, emit (EvExists bundleFile true) w) ∧
     Standalone.ensureBundle h w = (Ok bundleFile, emit (EvExists bundleFile true) w)) ∧
  (present = false → status npm.1 = Some 0%Z →
     SingleFile.ensureBundle h w = (Ok bundleFile, w2) ∧
     Standalone.ensureBundle h w = (Ok bundleFile, w2)) ∧
  (present = false → status npm.1 ≠ Some 0%Z →
     SingleFile.ensureBundle h w = (Throw "Command failed: npm run bundle", w2) ∧
     Standalone.ensureBundle h w
       = (Exit 1, emit (EvError ("Command failed with status "
                                   +:+ show_status (status npm.1))) w2)) ∧
  (∀ args w0 e w',
     (SingleFile.checkBun h ;;; SingleFile.cleanDist h) w0 = (Ok tt, w) →
     SingleFile.ensureBundle h w = (Throw e, w') →
     node_run (SingleFile.script h args) w0
       = (1%Z, emit (EvError ("Build failed: " +:+ e)) w')) ∧
  (∀ args c w',
     Standalone.ensureBundle h w = (Exit c, w') →
     node_run (Standalone.script h args) w = (c, w')).
Proof.
  intros bundleFile present w1 npm w2.
  unfold SingleFile.ensureBundle, Standalone.ensureBundle,
    SingleFile.run, Standalone.run, SingleFile.bundleDir, Standalone.bundleDir.
  fold bundleFile.
  split; [|split; [|split; [|split]]].
  - intros Hp. step. fold present. rewrite Hp. by step.
  - intros Hp Hst. step. fold present. rewrite Hp. step.
    use_failed (failed_false _ Hst). by step.
  - intros Hp Hst. step. fold present. rewrite Hp. step.
    use_failed (failed_true _ Hst). by step.
  - intros args w0 e w' Hpre Hthrow.
    unfold node_run, SingleFile.script, try_catch, SingleFile.main.
    rewrite <- bind_assoc. rewrite (bind_ok _ _ _ _ _ Hpre).
    unfold SingleFile.ensureBundle, SingleFile.run, SingleFile.bundleDir.
    fold bundleFile. rewrite (bind_throw _ _ _ _ _ Hthrow). by step.
  - intros args c w' Hexit.
    unfold node_run, Standalone.script.
    unfold Standalone.ensureBundle, Standalone.run, Standalone.bundleDir.
    fold bundleFile. by rewrite (bind_exit _ _ _ _ _ Hexit).
Qed.

Lemma ensureBundle_single_attempt_witness :
  SingleFile.ensureBundle broken_host (start fs_bare)
  = (Throw "Command failed: npm run bundle",
     World fs_bare
       [ EvExists ["repo"; "bundle"; "gemini.js"] false;
         EvLog "Bundle not found, building...";
         EvLog "> npm run bundle";
         EvSpawn "npm" ["run"; "bundle"] ]) ∧
  Standalone.ensureBundle linux_host (start fs_bundle)
  = (Ok ["repo"; "bundle"; "gemini.js"],
     World fs_bundle [ EvExists ["repo"; "bundle"; "gemini.js"] true ]).
Proof.
  split.
  - apply (ensureBundle_single_attempt broken_host (start fs_bare)); [reflexivity|].
    discriminate.
  - apply (ensureBundle_single_attempt linux_host (start fs_bundle)). reflexivity.
Defined.

(** Counterexample to C4 as the spec words it: after the bundle command
    has run with status 0 the locator returns at once; it does not look
    for the file again, and returns normally although the file is still
    missing. *)
Lemma ensureBundle_no_recheck :
  let bundleFile := ["repo"; "bundle"; "gemini.js"] in
  let r := SingleFile.ensureBundle linux_host (start fs_bare) in
  r.1 = Ok bundleFile ∧
  trace r.2 = [ EvExists bundleFile false;
                EvLog "Bundle not found, building...";
                EvLog "> npm run bundle";
                EvSpawn "npm" ["run"; "bundle"] ] ∧
  exists_in (fs r.2) bundleFile = false.
Proof. vm_compute. done. Qed.

(** ** Native addons *)

(** C5, as the code has it: for a platform key of the addon table whose
    addon source directory does not exist, copying the addons raises
    nothing, prints nothing at all (no warning: the directory is skipped
    silently) and leaves the file system as it was, in both scripts; the
    same holds, but for the directory listing, when the directory exists
    and holds no .node file, so the output directory is the same in both
    cases. *)
Theorem copyNativeAddons_missing_dir h platform pkg destDir w :
  own_property SingleFile.ptyMap platform = Some pkg →
  let ptyPath := join (join (rootDir h) "node_modules") pkg in
  exists_in (fs w) ptyPath = false →
  SingleFile.copyNativeAddons h platform destDir w
    = (Ok tt, emit (EvExists ptyPath false) w) ∧
  Standalone.copyNativeAddons h platform destDir w
    = (Ok tt, emit (EvExists ptyPath false) w) ∧
  ∀ w0, is_dir (fs w0) ptyPath = true →
        List.filter (endsWith ".node") (children (fs w0) ptyPath) = [] →
        let w0' := emit (EvReaddir ptyPath) (emit (EvExists ptyPath true) w0) in
        SingleFile.copyNativeAddons h platform destDir w0 = (Ok tt, w0') ∧
        Standalone.copyNativeAddons h platform destDir w0 = (Ok tt, w0') ∧
        fs w0' = fs w0.
Proof.
  intros Hown ptyPath Hmiss.
  pose proof (get_own _ _ _ Hown) as Hget.
  pose proof (ptyMap_truthy _ _ Hown) as Htr.
  unfold SingleFile.copyNativeAddons, Standalone.copyNativeAddons.
  change Standalone.ptyMap with SingleFile.ptyMap. rewrite Hget.
  unfold truthy at 1 2 3 4. unfold property_truthy. rewrite Htr.
  unfold try_catch, join_property. fold ptyPath.
  split; [|split].
  - step. rewrite Hmiss. by step.
  - step. rewrite Hmiss. by step.
  - intros w0 Hdir Hnone. cbv zeta.
    split; [|split]; [| |reflexivity];
      step; rewrite (is_dir_exists _ _ Hdir); step; by rewrite Hdir, Hnone.
Qed.

Lemma copyNativeAddons_missing_dir_witness :
  SingleFile.copyNativeAddons linux_host "linux-x64" ["repo"; "dist-single"; "linux-x64"]
    (start fs_bundle)
  = (Ok tt,
     emit (EvExists (join (join (rootDir linux_host) "node_modules")
                       "@lydell/node-pty-linux-x64") false)
       (start fs_bundle)).
Proof.
  assert (Hown : own_property SingleFile.ptyMap "linux-x64"
                 = Some "@lydell/node-pty-linux-x64") by reflexivity.
  assert (Hmiss : exists_in (fs (start fs_bundle))
                    (join (join (rootDir linux_host) "node_modules")
                       "@lydell/node-pty-linux-x64") = false)
    by (vm_compute; reflexivity).
  exact (proj1 (copyNativeAddons_missing_dir linux_host "linux-x64" _ _ _ Hown Hmiss)).
Defined.

(** Counterexample to C5 as the spec words it: with the addon directory
    missing no warning is printed. *)
Lemma copyNativeAddons_missing_dir_silent :
  let w := start fs_bundle in
  let w' := (SingleFile.copyNativeAddons linux_host "linux-x64"
               ["repo"; "dist-single"; "linux-x64"] w).2 in
  exists_in (fs w) ["repo"; "node_modules"; "@lydell"; "node-pty-linux-x64"] = false ∧
  ¬ (∃ s, EvWarn s ∈ trace w').
Proof.
  split; [reflexivity|].
  intros [s Hs]. vm_compute in Hs.
  apply list_elem_of_singleton in Hs. discriminate.
Qed.

(** ** Launchers *)

Lemma write_file_entry f d a c mode :
  write_file f (entry d a) c mode
  = if is_dir f d then
      match f !! entry d a with
      | Some Dir => None
      | Some (File _ m) => Some (<[entry d a := File c m]> f)
      | None => Some (<[entry d a := File c mode]> f)
      end
    else None.
Proof.
  unfold write_file. rewrite removelast_entry.
  pose proof (entry_not_nil d a). by destruct (entry d a).
Qed.

Lemma write_file_is_dir f p c mode f' q :
  write_file f p c mode = Some f' → is_dir f q = true → is_dir f' q = true.
Proof.
  intros H Hq. destruct (write_file_lookup _ _ _ _ _ H) as (_ & Hother & _).
  unfold is_dir in *. destruct q as [|s q]; [done|].
  destruct (decide (s :: q = p)) as [<-|Hne]; [|by rewrite Hother].
  unfold write_file in H.
  destruct (is_dir f (removelast (s :: q))); [|done].
  by destruct (f !! (s :: q)) as [[]|].
Qed.

(** Two files written one after the other in one directory: both are
    there, and writing them again changes nothing. *)
Lemma write_pair f d a b c mode f1 f2 :
  a ≠ b →
  write_file f (entry d a) c mode = Some f1 →
  write_file f1 (entry d b) c mode = Some f2 →
  (∃ m, f2 !! entry d a = Some (File c m)) ∧
  (∃ m, f2 !! entry d b = Some (File c m)) ∧
  write_file f2 (entry d a) c mode = Some f2 ∧
  write_file f2 (entry d b) c mode = Some f2.
Proof.
  intros Hab H1 H2.
  destruct (write_file_lookup _ _ _ _ _ H1) as ([m1 Hm1] & Hq1 & Hd1 & _).
  destruct (write_file_lookup _ _ _ _ _ H2) as ([m2 Hm2] & Hq2 & Hd2 & _).
  assert (Hne : entry d a ≠ entry d b) by (by intros ?%entry_inj).
  assert (Ha : f2 !! entry d a = Some (File c m1)) by (by rewrite Hq2).
  repeat split; [by exists m1|by exists m2| |by apply (write_file_again f1)].
  rewrite removelast_entry in Hd1.
  pose proof (write_file_is_dir _ _ _ _ _ _ H2 (write_file_is_dir _ _ _ _ _ _ H1 Hd1))
    as Hd.
  rewrite write_file_entry, Ha, Hd. f_equal. by apply insert_id.
Qed.

Lemma createLauncher_files d isWindows w w' :
  Standalone.createLauncher d isWindows w = (Ok tt, w') →
  let content := if isWindows then Standalone.batContent else Standalone.shContent in
  (∀ name, name ∈ launcher_names isWindows →
     ∃ m, fs w' !! entry d name = Some (File content m)) ∧
  ∃ w'', Standalone.createLauncher d isWindows w' = (Ok tt, w'') ∧ fs w'' = fs w'.
Proof.
  unfold Standalone.createLauncher, launcher_names.
  destruct isWindows; cbv zeta; step.
  - change (join d "gsharp.cmd") with (entry d "gsharp.cmd").
    change (join d "gemini-sharp.cmd") with (entry d "gemini-sharp.cmd").
    destruct (write_file (fs w) _ _ _) as [f1|] eqn:H1; [|intros [=]].
    unfold writeFileSync. cbn [fs trace emit].
    destruct (write_file f1 _ _ _) as [f2|] eqn:H2; [|intros [=]].
    intros [= <-]. cbn [fs].
    assert (Hne : "gsharp.cmd" ≠ "gemini-sharp.cmd") by discriminate.
    destruct (write_pair _ _ _ _ _ _ _ _ Hne H1 H2) as (Ha & Hb & Wa & Wb).
    split.
    + by intros name [->|[->|[]%elem_of_nil]%elem_of_cons]%elem_of_cons.
    + rewrite Wa, Wb. eauto.
  - change (join d "gsharp") with (entry d "gsharp").
    change (join d "gemini-sharp") with (entry d "gemini-sharp").
    destruct (write_file (fs w) _ _ _) as [f1|] eqn:H1; [|intros [=]].
    unfold writeFileSync. cbn [fs trace emit].
    destruct (write_file f1 _ _ _) as [f2|] eqn:H2; [|intros [=]].
    intros [= <-]. cbn [fs].
    assert (Hne : "gsharp" ≠ "gemini-sharp") by discriminate.
    destruct (write_pair _ _ _ _ _ _ _ _ Hne H1 H2) as (Ha & Hb & Wa & Wb).
    split.
    + by intros name [->|[->|[]%elem_of_nil]%elem_of_cons]%elem_of_cons.
    + rewrite Wa, Wb. eauto.
Qed.

(** C7: launcher generation in the standalone script is deterministic and
    idempotent.  For platform keys on the same side of the Windows test,
    any two successful generations, whatever the worlds they start from,
    leave the same bytes in both launchers: the batch text on Windows,
    the shell text elsewhere; the key plays no other part.  Generating
    once more over the result succeeds and changes nothing. *)
Theorem createLauncher_deterministic h k1 k2 w1 w2 w1' w2' :
  let dir k := join (Standalone.distDir h) ("gsharp-" +:+ k) in
  let isWindows k := startsWith "win" k in
  isWindows k1 = isWindows k2 →
  Standalone.createLauncher (dir k1) (isWindows k1) w1 = (Ok tt, w1') →
  Standalone.createLauncher (dir k2) (isWindows k2) w2 = (Ok tt, w2') →
  let content := if isWindows k1 then Standalone.batContent else Standalone.shContent in
  (∀ name, name ∈ launcher_names (isWindows k1) →
     (∃ m, fs w1' !! entry (dir k1) name = Some (File content m)) ∧
     (∃ m, fs w2' !! entry (dir k2) name = Some (File content m))) ∧
  (∃ w1'', Standalone.createLauncher (dir k1) (isWindows k1) w1' = (Ok tt, w1'') ∧
           fs w1'' = fs w1').
Proof.
  intros dir isWindows Hsame H1 H2 content.
  destruct (createLauncher_files _ _ _ _ H1) as [Hfiles1 Hagain].
  destruct (createLauncher_files _ _ _ _ H2) as [Hfiles2 _].
  split; [|exact Hagain].
  intros name Hname. split; [by apply Hfiles1|].
  unfold content. rewrite Hsame. apply Hfiles2. by rewrite <- Hsame.
Qed.

Lemma createLauncher_deterministic_witness :
  let w := start fs_packages in
  let linux := ["repo"; "dist-standalone"; "gsharp-linux-x64"] in
  let mac := ["repo"; "dist-standalone"; "gsharp-mac-arm64"] in
  (∃ m, fs (Standalone.createLauncher linux false w).2 !! entry linux "gsharp"
        = Some (File Standalone.shContent m)) ∧
  (∃ m, fs (Standalone.createLauncher mac false w).2 !! entry mac "gsharp"
        = Some (File Standalone.shContent m)).
Proof.
  intros w linux mac.
  assert (Hsame : startsWith "win" "linux-x64" = startsWith "win" "mac-arm64")
    by reflexivity.
  assert (H1 : Standalone.createLauncher linux false w
               = (Ok tt, (Standalone.createLauncher linux false w).2))
    by (apply run_ok; vm_compute; reflexivity).
  assert (H2 : Standalone.createLauncher mac false w
               = (Ok tt, (Standalone.createLauncher mac false w).2))
    by (apply run_ok; vm_compute; reflexivity).
  destruct (createLauncher_deterministic linux_host "linux-x64" "mac-arm64"
              w w _ _ Hsame H1 H2) as [Hfiles _].
  apply (Hfiles "gsharp"). by left.
Defined.

(** ** Cleaning the output root *)

(** What the cleaning step does: it looks for the output root, removes it
    when it is there, and creates it; when it completes, the output root
    is an empty directory. *)
Lemma cleanDist_spec h w :
  well_formed (fs w) →
  let d := SingleFile.distDir h in
  ∃ r w' found,
    SingleFile.cleanDist h w = (r, w') ∧
    trace w' = trace w ++ EvExists d found :: (if found then [EvRm d] else []) ++ [EvMkdir d] ∧
    (∀ c, r ≠ Exit c) ∧
    (r = Ok tt →
       fs w' !! d = Some Dir ∧ (∀ q, q ≠ [] → fs w' !! (d ++ q) = None) ∧
       well_formed (fs w')).
Proof.
  intros Hwf d. unfold SingleFile.cleanDist. fold d.
  assert (Hd : d ≠ []) by apply entry_not_nil.
  step. destruct (exists_in (fs w) d) eqn:Hfound; step.
  - rewrite Hfound. unfold mkdirSync. cbn [fs trace emit].
    destruct (mkdir_p (rm_r (fs w) d) [] d) as [f'|] eqn:Hmk.
    + eexists _, _, true. split; [reflexivity|]. cbn [fs trace emit].
      split; [by rewrite <- !app_assoc|]. split; [done|]. intros _. split; [|split].
      * exact (mkdir_p_dir _ [] d _ Hmk Hd).
      * intros q Hq. rewrite (mkdir_p_other _ [] d _ _ Hmk) by by apply not_prefix_longer.
        rewrite rm_r_lookup. apply decide_True. by apply prefix_app_r.
      * by apply (well_formed_mkdir_p _ [] d _ (well_formed_rm_r _ d Hwf)).
    + eexists _, _, true. split; [reflexivity|]. cbn [fs trace emit].
      split; [by rewrite <- !app_assoc|]. by split.
  - unfold mkdirSync. cbn [fs trace emit].
    destruct (mkdir_p (fs w) [] d) as [f'|] eqn:Hmk.
    + eexists _, _, false. split; [reflexivity|]. cbn [fs trace emit].
      split; [by rewrite <- !app_assoc|]. split; [done|]. intros _. split; [|split].
      * exact (mkdir_p_dir _ [] d _ Hmk Hd).
      * intros q Hq. rewrite (mkdir_p_other _ [] d _ _ Hmk) by by apply not_prefix_longer.
        apply well_formed_below; [done..|]. by apply exists_in_false.
      * by apply (well_formed_mkdir_p _ [] d _ Hwf).
    + eexists _, _, false. split; [reflexivity|]. cbn [fs trace emit].
      split; [by rewrite <- !app_assoc|]. by split.
Qed.

(** C6, as the code has it: in every invocation of the single-file script
    whose toolchain check succeeds, the output root is deleted (if it
    exists) and created again right after that check, before the bundle
    locator runs and before any platform is built; at that point the
    output root is an empty directory, so nothing of a previous run
    survives in it.  When the toolchain check fails the script exits with
    code 1 and has removed and created nothing. *)
Theorem cleanDist_before_build h args w :
  well_formed (fs w) → tidy h →
  let d := SingleFile.distDir h in
  let check := child h (trace w) "bun" ["--version"] (fs w) in
  let checked := World check.2 (trace w ++ [EvSpawn "bun" ["--version"]]) in
  let w0 := emit (EvLog ("Using Bun " +:+ trim (stdout check.1))) checked in
  (failed check.1 = true →
     SingleFile.main h args w
     = (Exit 1,
        emit (EvError "Bun not found. Install with: curl -fsSL https://bun.sh/install | bash")
          checked)) ∧
  (failed check.1 = false →
     ∃ r w1 found,
       SingleFile.cleanDist h w0 = (r, w1) ∧
       trace w1
       = trace w0 ++ EvExists d found :: (if found then [EvRm d] else []) ++ [EvMkdir d] ∧
       match r with
       | Ok _ =>
           fs w1 !! d = Some Dir ∧ (∀ q, q ≠ [] → fs w1 !! (d ++ q) = None) ∧
           SingleFile.main h args w = single_after_clean h args w1
       | Throw e => SingleFile.main h args w = (Throw e, w1)
       | Exit c => False
       end).
Proof.
  intros Hwf Htidy d check checked w0. split.
  - intros Hfail. unfold SingleFile.main, SingleFile.checkBun. step.
    use_failed Hfail. by step.
  - intros Hpass.
    assert (Hwf0 : well_formed (fs w0)) by apply (Htidy _ _ _ _ Hwf).
    destruct (cleanDist_spec h w0 Hwf0)
      as (r & w1 & found & Hclean & Htrace & Hexit & Hempty).
    exists r, w1, found. split; [done|]. split; [done|].
    assert (Hmain : SingleFile.main h args w
                    = bind (SingleFile.cleanDist h) (λ _, single_after_clean h args) w0).
    { unfold SingleFile.main, SingleFile.checkBun. step. use_failed Hpass. by step. }
    destruct r as [[]|e|c].
    + destruct (Hempty eq_refl) as (Hdir & Hbelow & _). split; [done|]. split; [done|].
      by rewrite Hmain, (bind_ok _ _ _ _ _ Hclean).
    + by rewrite Hmain, (bind_throw _ _ _ _ _ Hclean).
    + by apply (Hexit c).
Qed.

Lemma well_formed_fs_stale : well_formed fs_stale.
Proof. apply (bool_decide_unpack _). vm_compute. exact I. Qed.

Lemma tidy_linux_host : tidy linux_host.
Proof. intros tr cmd args f Hwf. exact Hwf. Qed.

Lemma cleanDist_before_build_witness :
  ∃ w1,
    fs w1 !! ["repo"; "dist-single"] = Some Dir ∧
    fs w1 !! ["repo"; "dist-single"; "linux-x64"; "gsharp"] = None ∧
    SingleFile.main linux_host ["--all"] (start fs_stale)
    = single_after_clean linux_host ["--all"] w1.
Proof.
  destruct (cleanDist_before_build linux_host ["--all"] (start fs_stale)
              well_formed_fs_stale tidy_linux_host) as [_ Hpass].
  destruct (Hpass eq_refl) as (r & w1 & found & Hclean & _ & Hr).
  assert (Hok : (SingleFile.cleanDist linux_host
                   (emit (EvLog "Using Bun 1.1.0")
                      (World fs_stale [EvSpawn "bun" ["--version"]]))).1 = Ok tt)
    by (vm_compute; reflexivity).
  change (SingleFile.cleanDist linux_host
            (emit (EvLog "Using Bun 1.1.0")
               (World fs_stale [EvSpawn "bun" ["--version"]])) = (r, w1)) in Hclean.
  rewrite Hclean in Hok. simpl in Hok. subst r.
  destruct Hr as (Hdir & Hbelow & Hmain).
  exists w1. split; [exact Hdir|]. split; [|exact Hmain].
  apply (Hbelow ["linux-x64"; "gsharp"]). discriminate.
Defined.

(** Counterexample to C6 as the spec words it: when the toolchain check
    fails the run ends before the cleaning step, and what a previous run
    left in the output root is still there. *)
Lemma toolchain_missing_keeps_output :
  let stale := ["repo"; "dist-single"; "linux-x64"; "gsharp"] in
  let r := node_run (SingleFile.script broken_host ["--all"]) (start fs_stale) in
  r.1 = 1%Z ∧
  trace r.2
  = [ EvSpawn "bun" ["--version"];
      EvError "Bun not found. Install with: curl -fsSL https://bun.sh/install | bash" ] ∧
  fs r.2 !! stale = Some (File "old" 493%Z).
Proof. vm_compute. done. Qed.

(** ** The dispatch on the arguments *)

Lemma main_split h args w :
  SingleFile.main h args w
  = bind (SingleFile.checkBun h ;;; SingleFile.cleanDist h ;;; SingleFile.ensureBundle h)
      (λ bundlePath,
         SingleFile.buildExecutables h args bundlePath ;;;
         console_log (nl +:+ "Done! Single-file executables are in dist-single/")) w.
Proof.
  unfold SingleFile.main, bind.
  destruct (SingleFile.checkBun h w) as [[[]|?|?] w0]; [|done..].
  destruct (SingleFile.cleanDist h w0) as [[[]|?|?] w1]; [|done..].
  by destruct (SingleFile.ensureBundle h w1) as [[?|?|?] ?].
Qed.

Lemma standalone_split h args w :
  Standalone.script h args w
  = bind (Standalone.ensureBundle h ;;; mkdirSync (Standalone.distDir h))
      (λ _,
         Standalone.buildPackages h args ;;;
         console_log (nl +:+ "Done! Packages are in dist-standalone/") ;;;
         console_log "Note: Users need Node.js 20+ installed to run these packages.") w.
Proof.
  unfold Standalone.script, bind.
  destruct (Standalone.ensureBundle h w) as [[?|?|?] w0]; [|done..].
  by destruct (mkdirSync (Standalone.distDir h) w0) as [[[]|?|?] w1].
Qed.

Lemma single_preamble_exits h :
  exits (λ c, c = 1%Z)
    (SingleFile.checkBun h ;;; SingleFile.cleanDist h ;;; SingleFile.ensureBundle h).
Proof.
  unfold SingleFile.checkBun, SingleFile.cleanDist.
  exits_auto.
Qed.

Lemma standalone_preamble_exits h :
  exits (λ c, c = 1%Z) (Standalone.ensureBundle h ;;; mkdirSync (Standalone.distDir h)).
Proof. unfold Standalone.ensureBundle, Standalone.run. exits_auto. Qed.

Lemma string_truthy_ne (s : string) : s ≠ "" → truthy s = true.
Proof. by destruct s. Qed.

Lemma single_dispatch_unknown h args key bundlePath :
  includes "--all" args = false → first_positional args = Some key →
  key ≠ "" → key ∉ keys SingleFile.targets → key ∉ object_prototype →
  SingleFile.buildExecutables h args bundlePath
  = (console_error ("Unknown platform: " +:+ key) ;;;
     console_log ("Available: " +:+ join_with ", " (keys SingleFile.targets)) ;;;
     exit 1).
Proof.
  intros Hall Hkey Hne Htab Hproto. unfold SingleFile.buildExecutables.
  rewrite Hall, Hkey. change (default "" (Some key)) with key.
  rewrite (get_undefined _ _ Htab Hproto).
  unfold truthy at 1 3. unfold option_truthy. rewrite (string_truthy_ne _ Hne).
  reflexivity.
Qed.

Lemma standalone_dispatch_unknown h args key :
  includes "--all" args = false → first_positional args = Some key →
  key ≠ "" → key ∉ keys Standalone.platforms → key ∉ object_prototype →
  Standalone.buildPackages h args
  = (console_error ("Unknown platform: " +:+ key) ;;;
     console_log ("Available: " +:+ join_with ", " (keys Standalone.platforms)) ;;;
     exit 1).
Proof.
  intros Hall Hkey Hne Htab Hproto. unfold Standalone.buildPackages.
  rewrite Hall, Hkey. change (default "" (Some key)) with key.
  rewrite (get_undefined _ _ Htab Hproto).
  unfold truthy at 1 3. unfold option_truthy. rewrite (string_truthy_ne _ Hne).
  reflexivity.
Qed.

(** A key that every object inherits passes the test [platforms[key]]: the
    standalone script then builds a package for it and ends with code 0.
    Such keys are left out of the statement below. *)
Lemma standalone_inherited_key :
  let r := node_run (Standalone.script linux_host ["constructor"]) (start fs_bundle) in
  ("constructor" ∉ keys Standalone.platforms) ∧
  get Standalone.platforms "constructor" = Inherited "constructor" ∧
  r.1 = 0%Z ∧
  fs r.2 !! ["repo"; "dist-standalone"; "gsharp-constructor"; "README.txt"]
  = Some (File (Standalone.readmeContent false) default_mode).
Proof.
  split.
  { apply (bool_decide_unpack _). vm_compute. exact I. }
  split; [reflexivity|]. split; by vm_compute.
Qed.

(** C3, as the code has it: without [--all], when the first argument that
    is not a flag is a non-empty string that names neither an entry of
    the platform table nor a property every object inherits, the driver
    exits with code 1; when the steps before the dispatch complete (the
    toolchain check, the cleaning of the output root and the bundle
    locator in the single-file script; the bundle locator and the
    creation of the output root in the standalone one) it prints the
    unknown-platform message and the keys of the table, and does nothing
    else after those steps: no platform is built.  Those steps themselves
    do change the file system. *)
Theorem unknown_platform_exit h args key :
  includes "--all" args = false →
  first_positional args = Some key →
  key ≠ "" → key ∉ keys SingleFile.targets → key ∉ object_prototype →
  let report w1 :=
    emit (EvLog "Available: linux-x64, linux-arm64, mac-x64, mac-arm64, win-x64")
      (emit (EvError ("Unknown platform: " +:+ key)) w1) in
  (∀ w, (node_run (SingleFile.script h args) w).1 = 1%Z ∧
        (node_run (Standalone.script h args) w).1 = 1%Z) ∧
  (∀ w bundlePath w1,
     (SingleFile.checkBun h ;;; SingleFile.cleanDist h ;;; SingleFile.ensureBundle h) w
       = (Ok bundlePath, w1) →
     node_run (SingleFile.script h args) w = (1%Z, report w1)) ∧
  (∀ w w1,
     (Standalone.ensureBundle h ;;; mkdirSync (Standalone.distDir h)) w = (Ok tt, w1) →
     node_run (Standalone.script h args) w = (1%Z, report w1)).
Proof.
  intros Hall Hkey Hne Htab Hproto report.
  assert (Hsingle : ∀ w bundlePath w1,
     (SingleFile.checkBun h ;;; SingleFile.cleanDist h ;;; SingleFile.ensureBundle h) w
       = (Ok bundlePath, w1) →
     node_run (SingleFile.script h args) w = (1%Z, report w1)).
  { intros w bp w1 Hpre. unfold node_run, SingleFile.script, try_catch.
    rewrite main_split, (bind_ok _ _ _ _ _ Hpre).
    rewrite (single_dispatch_unknown h args key bp) by done. by step. }
  assert (Hstand : ∀ w w1,
     (Standalone.ensureBundle h ;;; mkdirSync (Standalone.distDir h)) w = (Ok tt, w1) →
     node_run (Standalone.script h args) w = (1%Z, report w1)).
  { intros w w1 Hpre. unfold node_run.
    rewrite standalone_split, (bind_ok _ _ _ _ _ Hpre).
    rewrite (standalone_dispatch_unknown h args key) by done. by step. }
  split; [|done]. intros w. split.
  - destruct ((SingleFile.checkBun h ;;; SingleFile.cleanDist h ;;;
               SingleFile.ensureBundle h) w) as [[bp|e|c] w1] eqn:Hpre.
    + by rewrite (Hsingle _ _ _ Hpre).
    + unfold node_run, SingleFile.script, try_catch.
      rewrite main_split, (bind_throw _ _ _ _ _ Hpre). by step.
    + pose proof (single_preamble_exits h w c) as Hc. rewrite Hpre in Hc.
      unfold node_run, SingleFile.script, try_catch.
      rewrite main_split, (bind_exit _ _ _ _ _ Hpre). simpl. by apply Hc.
  - destruct ((Standalone.ensureBundle h ;;; mkdirSync (Standalone.distDir h)) w)
      as [[[]|e|c] w1] eqn:Hpre.
    + by rewrite (Hstand _ _ Hpre).
    + unfold node_run. by rewrite standalone_split, (bind_throw _ _ _ _ _ Hpre).
    + pose proof (standalone_preamble_exits h w c) as Hc. rewrite Hpre in Hc.
      unfold node_run. rewrite standalone_split, (bind_exit _ _ _ _ _ Hpre).
      simpl. by apply Hc.
Qed.

Lemma unknown_platform_exit_witness :
  node_run (SingleFile.script linux_host ["bogus"]) (start fs_bundle)
  = (1%Z,
     emit (EvLog "Available: linux-x64, linux-arm64, mac-x64, mac-arm64, win-x64")
       (emit (EvError "Unknown platform: bogus")
          ((SingleFile.checkBun linux_host ;;; SingleFile.cleanDist linux_host ;;;
            SingleFile.ensureBundle linux_host) (start fs_bundle)).2)).
Proof.
  assert (H1 : includes "--all" ["bogus"] = false) by reflexivity.
  assert (H2 : first_positional ["bogus"] = Some "bogus") by reflexivity.
  assert (H3 : "bogus" ≠ "") by discriminate.
  assert (H4 : "bogus" ∉ keys SingleFile.targets)
    by (apply (bool_decide_unpack _); vm_compute; exact I).
  assert (H5 : "bogus" ∉ object_prototype)
    by (apply (bool_decide_unpack _); vm_compute; exact I).
  destruct (unknown_platform_exit linux_host ["bogus"] "bogus" H1 H2 H3 H4 H5)
    as (_ & Hsingle & _).
  apply (Hsingle _ ["repo"; "bundle"; "gemini.js"]). reflexivity.
Defined.

(** Counterexample to C3 as the spec words it: with an unknown platform
    key the single-file driver has deleted the previous output before it
    exits, and the standalone driver has created its output root. *)
Lemma unknown_platform_touches_fs :
  let stale := ["repo"; "dist-single"; "linux-x64"; "gsharp"] in
  let single := node_run (SingleFile.script linux_host ["bogus"]) (start fs_stale) in
  let standalone := node_run (Standalone.script linux_host ["bogus"]) (start fs_stale) in
  includes "--all" ["bogus"] = false ∧
  first_positional ["bogus"] = Some "bogus" ∧
  own_property SingleFile.targets "bogus" = None ∧
  single.1 = 1%Z ∧
  fs_stale !! stale = Some (File "old" 493%Z) ∧
  fs single.2 !! stale = None ∧
  standalone.1 = 1%Z ∧
  fs_stale !! ["repo"; "dist-standalone"] = None ∧
  fs standalone.2 !! ["repo"; "dist-standalone"] = Some Dir.
Proof. vm_compute. done. Qed.

(** ** The standalone script deletes nothing *)

Lemma standalone_copyNativeAddons_keeps h platform destDir :
  steps keeps (Standalone.copyNativeAddons h platform destDir).
Proof.
  unfold Standalone.copyNativeAddons, keeps. steps_auto. by eapply kept_copy.
Qed.

Lemma standalone_createLauncher_keeps d isWindows :
  steps keeps (Standalone.createLauncher d isWindows).
Proof.
  unfold Standalone.createLauncher, keeps. destruct isWindows; steps_auto;
    by eapply kept_write.
Qed.

Lemma standalone_buildPackage_keeps h key : steps keeps (Standalone.buildPackage h key).
Proof.
  unfold Standalone.buildPackage. unfold keeps at 1. steps_auto;
    try (by eapply kept_mkdir); try (by eapply kept_copy); try (by eapply kept_write).
  - apply standalone_copyNativeAddons_keeps.
  - apply standalone_createLauncher_keeps.
Qed.






(** ** The package root *)

(** Solves [steps keeps m] for the pieces of the standalone build. *)
Ltac keeps_auto :=
  unfold keeps; steps_auto;
  first [ by eapply kept_mkdir | by eapply kept_copy | by eapply kept_write
        | apply standalone_copyNativeAddons_keeps
        | apply standalone_createLauncher_keeps ].

Lemma mkdirSync_ok p w w' : p ≠ [] → mkdirSync p w = (Ok tt, w') → fs w' !! p = Some Dir.
Proof.
  intros Hp. unfold mkdirSync. destruct (mkdir_p (fs w) [] p) as [f'|] eqn:E; [|done].
  intros [= <-]. exact (mkdir_p_dir _ [] p _ E Hp).
Qed.

Lemma writeFileSync_ok p c mode w w' :
  writeFileSync p c mode w = (Ok tt, w') → ∃ m, fs w' !! p = Some (File c m).
Proof.
  unfold writeFileSync. destruct (write_file (fs w) p c mode) as [f'|] eqn:E; [|done].
  intros [= <-]. by destruct (write_file_lookup _ _ _ _ _ E) as (? & _).
Qed.

Lemma standalone_copyNativeAddons_adds h platform dir names :
  steps (adds dir names) (Standalone.copyNativeAddons h platform (entry dir "bundle")).
Proof.
  unfold Standalone.copyNativeAddons, adds. steps_auto.
  eapply added_copy; [|done]. intros name Hname. by apply entry_entry_ne in Hname.
Qed.

Lemma standalone_createLauncher_adds dir isWindows :
  steps (adds dir (package_entries isWindows)) (Standalone.createLauncher dir isWindows).
Proof.
  unfold Standalone.createLauncher, adds, package_entries, launcher_names.
  destruct isWindows; steps_auto; fold_entries.
  all: eapply added_write; [|done]; intros name <-%entry_inj; set_solver.
Qed.

Lemma standalone_copyNativeAddons_copies h platform destDir :
  steps (emits (copies_into destDir)) (Standalone.copyNativeAddons h platform destDir).
Proof.
  unfold Standalone.copyNativeAddons. steps_auto; try exact I. by eexists.
Qed.

Section Package.
Context (h : host) (key : string) (cfg : Standalone.config).
Hypothesis Hkey : own_property Standalone.platforms key = Some cfg.
Hypothesis Hseg : segments ("gsharp-" +:+ key) = ["gsharp-" +:+ key].

Let dir := entry (Standalone.distDir h) ("gsharp-" +:+ key).
Let isWindows := startsWith "win" key.

(** The body of [buildPackage] for a key of the table. *)
Lemma buildPackage_unfold :
  Standalone.buildPackage h key
  = (mkdirSync (entry dir "bundle") ;;;
     console_log (nl +:+ "Building package for " +:+ key +:+ "...") ;;;
     bundleFiles <- readdirSync (Standalone.bundleDir h) ;;
     for_of bundleFiles (λ file,
       copyFileSync (entry (Standalone.bundleDir h) file)
         (entry (entry dir "bundle") file)) ;;;
     console_log ("  Copied " +:+ show_nat (List.length bundleFiles) +:+ " bundle files") ;;;
     Standalone.copyNativeAddons h key (entry dir "bundle") ;;;
     Standalone.createLauncher dir isWindows ;;;
     console_log "  Created launcher scripts" ;;;
     writeFileSync (entry dir "README.txt") (Standalone.readmeContent isWindows)
       default_mode ;;;
     console_log (nl +:+ "Package ready: " +:+ path_str dir) ;;;
     ret dir).
Proof.
  unfold Standalone.buildPackage. rewrite (get_own _ _ _ Hkey).
  rewrite (join_single _ _ Hseg). reflexivity.
Qed.

Lemma buildPackage_adds :
  steps (adds dir (package_entries isWindows)) (Standalone.buildPackage h key).
Proof.
  rewrite buildPackage_unfold. unfold adds at 1. steps_auto.
  - eapply added_mkdir; [|done]. intros name ->%entry_prefix_entry.
    unfold package_entries. set_solver.
  - eapply added_copy; [|done]. intros name Hname. by apply entry_entry_ne in Hname.
  - apply standalone_copyNativeAddons_adds.
  - apply standalone_createLauncher_adds.
  - eapply added_write; [|done]. intros name <-%entry_inj.
    unfold package_entries. set_solver.
Qed.

Lemma buildPackage_copies :
  steps (emits (copies_into (entry dir "bundle"))) (Standalone.buildPackage h key).
Proof.
  rewrite buildPackage_unfold.
  unfold Standalone.createLauncher. steps_auto; try exact I.
  - by eexists.
  - apply standalone_copyNativeAddons_copies.
Qed.

(** After a build that completes, the four entries are in the package
    root. *)
Lemma buildPackage_entries w d w' :
  Standalone.buildPackage h key w = (Ok d, w') →
  d = dir ∧ ∀ name, name ∈ package_entries isWindows → is_Some (fs w' !! entry dir name).
Proof.
  rewrite buildPackage_unfold. intros H.
  apply bind_ok_inv in H as ([] & w1 & Hmk & H).
  assert (K1 : keeps w1 w') by (refine (steps_run keeps _ _ _ _ _ H); keeps_auto).
  rewrite step_log in H.
  apply bind_ok_inv in H as (files & w2 & _ & H).
  apply bind_ok_inv in H as ([] & w3 & _ & H). rewrite step_log in H.
  apply bind_ok_inv in H as ([] & w4 & _ & H).
  apply bind_ok_inv in H as ([] & w5 & Hlaunch & H).
  assert (K5 : keeps w5 w') by (refine (steps_run keeps _ _ _ _ _ H); keeps_auto).
  rewrite step_log in H.
  apply bind_ok_inv in H as ([] & w6 & Hreadme & H). rewrite step_log in H.
  injection H as <- <-. split; [done|].
  intros name Hname. unfold package_entries in Hname.
  apply elem_of_cons in Hname as [->|Hname]; [|apply elem_of_app in Hname as [Hname|Hname]].
  - apply K1. rewrite (mkdirSync_ok _ _ _ (entry_not_nil _ _) Hmk). by eexists.
  - apply K5. destruct (createLauncher_files _ _ _ _ Hlaunch) as [Hfiles _].
    destruct (Hfiles name Hname) as [m Hm]. by eexists.
  - apply list_elem_of_singleton in Hname as ->.
    destruct (writeFileSync_ok _ _ _ _ _ Hreadme) as [m Hm]. by eexists.
Qed.
End Package.

Lemma platform_key_cases key :
  key ∈ keys Standalone.platforms →
  ∃ cfg, own_property Standalone.platforms key = Some cfg ∧
         segments ("gsharp-" +:+ key) = ["gsharp-" +:+ key] ∧
         segments key = [key].
Proof.
  intros H. apply list_elem_of_In in H. simpl in H.
  destruct H as [<-|[<-|[<-|[<-|[<-|[]]]]]]; eexists; repeat split; reflexivity.
Qed.

(** C10, as the code has it: the standalone build copies every file,
    the native addons among them, into the package's bundle/ directory
    and never into the package root; to the package root a build that
    completes adds the bundle/ directory, the two launchers and
    README.txt, and nothing else.  What the package root held before is
    kept, so it holds exactly those four entries when it was absent or
    empty before the build. *)
Theorem buildPackage_root_entries h key w d w' :
  key ∈ keys Standalone.platforms →
  Standalone.buildPackage h key w = (Ok d, w') →
  let isWindows := startsWith "win" key in
  d = entry (Standalone.distDir h) ("gsharp-" +:+ key) ∧
  (∀ name, name ∈ children (fs w') d ↔
           name ∈ children (fs w) d ∨ name ∈ package_entries isWindows) ∧
  (children (fs w) d = [] →
   ∀ name, name ∈ children (fs w') d ↔ name ∈ package_entries isWindows) ∧
  (∃ evs, trace w' = trace w ++ evs ∧ Forall (copies_into (entry d "bundle")) evs).
Proof.
  intros Hkey Hrun isWindows.
  destruct (platform_key_cases key Hkey) as (cfg & Hown & Hseg & _).
  destruct (buildPackage_entries h key cfg Hown Hseg _ _ _ Hrun) as [-> Hfour].
  pose proof (steps_run _ _ _ _ _ (buildPackage_adds h key cfg Hown Hseg) Hrun) as Hadds.
  pose proof (steps_run _ _ _ _ _ (standalone_buildPackage_keeps h key) Hrun) as Hkeeps.
  pose proof (steps_run _ _ _ _ _ (buildPackage_copies h key cfg Hown Hseg) Hrun) as Hcopies.
  set (dir := entry (Standalone.distDir h) ("gsharp-" +:+ key)) in *.
  assert (Hiff : ∀ name, name ∈ children (fs w') dir ↔
                         name ∈ children (fs w) dir ∨ name ∈ package_entries isWindows).
  { intros name. rewrite !elem_of_children. split; [apply Hadds|].
    intros [Hold|Hnew]; [by apply Hkeeps|by apply Hfour]. }
  split; [done|]. split; [exact Hiff|]. split; [|exact Hcopies].
  intros Hfresh name. rewrite Hiff, Hfresh. split; [|by right].
  by intros [?%elem_of_nil|Hin].
Qed.

Lemma buildPackage_root_entries_witness :
  let r := Standalone.buildPackage linux_host "linux-x64" (start fs_bundle) in
  let d := ["repo"; "dist-standalone"; "gsharp-linux-x64"] in
  let entries := ["bundle"; "gsharp"; "gemini-sharp"; "README.txt"] in
  ("README.txt" ∈ children (fs r.2) d ↔ "README.txt" ∈ entries) ∧
  ("gsharp.cmd" ∈ children (fs r.2) d ↔ "gsharp.cmd" ∈ entries).
Proof.
  intros r d entries.
  cut (∀ name, name ∈ children (fs r.2) d ↔ name ∈ entries); [by split|].
  assert (Hkey : "linux-x64" ∈ keys Standalone.platforms) by (by left).
  assert (Hrun : Standalone.buildPackage linux_host "linux-x64" (start fs_bundle)
                 = (Ok d, r.2))
    by (refine (run_ok _ (start fs_bundle) d _); vm_compute; reflexivity).
  assert (Hfresh : children (fs (start fs_bundle)) d = []) by (vm_compute; reflexivity).
  destruct (buildPackage_root_entries linux_host "linux-x64" _ _ _ Hkey Hrun)
    as (_ & _ & Hexact & _).
  exact (Hexact Hfresh).
Defined.

(** Counterexample to C10 as the spec words it: a file that was in the
    package root before the build is still there after it, next to the
    four entries. *)
Lemma buildPackage_keeps_stale_entry :
  let r := Standalone.buildPackage linux_host "linux-x64" (start fs_packages) in
  let d := ["repo"; "dist-standalone"; "gsharp-linux-x64"] in
  r.1 = Ok d ∧
  "notes.txt" ∈ children (fs r.2) d ∧
  "notes.txt" ∉ package_entries (startsWith "win" "linux-x64").
Proof.
  split; [by vm_compute|]. split.
  - apply elem_of_children. vm_compute. by eexists.
  - apply (bool_decide_unpack _). vm_compute. exact I.
Qed.

(** ** The [--all] mode *)

Lemma single_dispatch_all h args bundlePath :
  includes "--all" args = true →
  SingleFile.buildExecutables h args bundlePath
  = (console_log (nl +:+ "Building for all platforms...") ;;;
     for_of (keys SingleFile.targets) (SingleFile.tryBuild h bundlePath)).
Proof. intros Hall. unfold SingleFile.buildExecutables. by rewrite Hall. Qed.

Lemma standalone_dispatch_all h args :
  includes "--all" args = true →
  Standalone.buildPackages h args
  = (console_log "Building packages for all platforms..." ;;;
     for_of (keys Standalone.platforms)
       (λ platform, _ <- Standalone.buildPackage h platform ;; ret tt)).
Proof. intros Hall. unfold Standalone.buildPackages. by rewrite Hall. Qed.








Lemma mkdirs_app evs1 evs2 : mkdirs (evs1 ++ evs2) = mkdirs evs1 ++ mkdirs evs2.
Proof. unfold mkdirs. apply omap_app. Qed.

Lemma mkdirs_none evs : Forall (λ e, mkdirs [e] = []) evs → mkdirs evs = [].
Proof.
  induction 1 as [|e evs He _ IH]; [done|].
  change (e :: evs) with ([e] ++ evs). by rewrite mkdirs_app, He, IH.
Qed.

Lemma single_buildForPlatform_no_exit h platform bundlePath :
  no_exit (SingleFile.buildForPlatform h platform bundlePath).
Proof.
  unfold no_exit, SingleFile.buildForPlatform, SingleFile.run,
    SingleFile.copyNativeAddons.
  exits_auto.
Qed.

(** One turn of the loop of the single-file script always completes. *)
Lemma tryBuild_ok h bundlePath platform w :
  (SingleFile.tryBuild h bundlePath platform w).1 = Ok tt.
Proof.
  unfold SingleFile.tryBuild, try_catch.
  pose proof (single_buildForPlatform_no_exit h platform bundlePath w) as Hexit.
  unfold bind.
  destruct (SingleFile.buildForPlatform h platform bundlePath w) as [[d|e|c] w1];
    [done|done|]. by destruct (Hexit c).
Qed.

Lemma single_key_cases key :
  key ∈ keys SingleFile.targets →
  ∃ name, get SingleFile.outputNames key = Own name ∧ segments key = [key].
Proof.
  intros H. apply list_elem_of_In in H. simpl in H.
  destruct H as [<-|[<-|[<-|[<-|[<-|[]]]]]]; eexists; split; reflexivity.
Qed.

(** One turn of the loop starts with the creation of the platform's
    directory and creates no other. *)
Lemma tryBuild_attempt h bundlePath platform w :
  platform ∈ keys SingleFile.targets →
  ∃ w' evs,
    SingleFile.tryBuild h bundlePath platform w = (Ok tt, w') ∧
    trace w' = trace w ++ evs ∧
    mkdirs evs = [entry (SingleFile.distDir h) platform].
Proof.
  intros Hkey. destruct (single_key_cases platform Hkey) as (name & Hname & Hseg).
  pose proof (tryBuild_ok h bundlePath platform w) as Hok.
  destruct (SingleFile.tryBuild h bundlePath platform w) as [r w'] eqn:Hrun.
  simpl in Hok. subst r. exists w'.
  revert Hrun. unfold SingleFile.tryBuild, SingleFile.buildForPlatform, try_catch.
  rewrite Hname, (join_single _ _ Hseg). cbv zeta. unfold join_property.
  rewrite bind_assoc, step_ret, bind_assoc, step_mkdir.
  set (dir := entry (SingleFile.distDir h) platform).
  destruct (mkdir_p (fs w) [] dir) as [f'|].
  - set (w1 := World f' (trace w ++ [EvMkdir dir])).
    match goal with
    | |- match ?m w1 with _ => _ end = _ → _ =>
        assert (Hrest : steps (emits (λ e, mkdirs [e] = []))
                          (try_catch m (λ message,
                             console_error ("Failed to build for " +:+ platform
                                            +:+ ": " +:+ message))))
    end.
    { unfold SingleFile.run, SingleFile.copyNativeAddons. steps_auto; reflexivity. }
    intros Hrun. destruct (Hrest w1) as (evs & Htr & Hevs).
    unfold try_catch in Htr. rewrite Hrun in Htr. cbn [snd] in Htr.
    exists (EvMkdir dir :: evs). split; [done|].
    split; [rewrite Htr; unfold w1; cbn [trace]; by rewrite <- app_assoc|].
    change (EvMkdir dir :: evs) with ([EvMkdir dir] ++ evs).
    by rewrite mkdirs_app, (mkdirs_none _ Hevs).
  - intros [= <-]. eexists. split; [done|]. cbn [trace emit].
    split; [by rewrite <- app_assoc|]. reflexivity.
Qed.

(** A loop whose every turn completes and creates one directory creates
    them all, in order. *)
Lemma for_of_attempts {A} (xs : list A) (body : A → M unit) (dir : A → list string) :
  (∀ x w, x ∈ xs → ∃ w' evs,
     body x w = (Ok tt, w') ∧ trace w' = trace w ++ evs ∧ mkdirs evs = [dir x]) →
  ∀ w, ∃ w' evs,
    for_of xs body w = (Ok tt, w') ∧ trace w' = trace w ++ evs ∧
    mkdirs evs = map dir xs.
Proof.
  induction xs as [|x xs IH]; intros Hbody w.
  - exists w, []. by rewrite app_nil_r.
  - destruct (Hbody x w) as (w1 & evs1 & Hrun1 & Htr1 & Hmk1); [by left|].
    destruct (IH (λ y w Hy, Hbody y w ltac:(by right)) w1)
      as (w' & evs2 & Hrun2 & Htr2 & Hmk2).
    exists w', (evs1 ++ evs2). simpl. rewrite (bind_ok _ _ _ _ _ Hrun1).
    split; [done|]. split; [by rewrite Htr2, Htr1, app_assoc|].
    by rewrite mkdirs_app, Hmk1, Hmk2.
Qed.

(** In [--all] mode the single-file dispatch completes whatever happens
    to the builds, and has started the build of every platform of the
    table, in the order of the table. *)
Lemma single_all_attempts h args bundlePath w :
  includes "--all" args = true →
  ∃ w' evs,
    SingleFile.buildExecutables h args bundlePath w = (Ok tt, w') ∧
    trace w' = trace w ++ evs ∧
    mkdirs evs = map (entry (SingleFile.distDir h)) (keys SingleFile.targets).
Proof.
  intros Hall. rewrite (single_dispatch_all h args bundlePath Hall), step_log.
  destruct (for_of_attempts (keys SingleFile.targets) (SingleFile.tryBuild h bundlePath)
              (entry (SingleFile.distDir h))
              (λ x w0 Hx, tryBuild_attempt h bundlePath x w0 Hx)
              (emit (EvLog (nl +:+ "Building for all platforms...")) w))
    as (w' & evs & Hrun & Htr & Hmk).
  exists w', (EvLog (nl +:+ "Building for all platforms...") :: evs).
  split; [done|]. split; [by rewrite Htr; cbn [trace emit]; rewrite <- app_assoc|].
  exact Hmk.
Qed.



Lemma standalone_buildPackage_no_exit h key :
  key ∈ keys Standalone.platforms → no_exit (Standalone.buildPackage h key).
Proof.
  intros Hkey. destruct (platform_key_cases key Hkey) as (cfg & Hown & Hseg & _).
  rewrite (buildPackage_unfold h key cfg Hown Hseg).
  unfold no_exit, Standalone.copyNativeAddons, Standalone.createLauncher.
  exits_auto.
Qed.

(** C1: the two scripts differ in what a failing build does in [--all]
    mode.  In the single-file script the dispatch always completes: an
    error thrown by the build of one platform is caught and logged, and
    the build of every platform of the table is started, in the order of
    the table.  In the standalone script the first entry of the table
    whose build fails ends the process with exit code 1, in the world that
    build left: no later platform is tried. *)
Theorem all_mode_failure_tolerance h args :
  includes "--all" args = true →
  (∀ bundlePath w, ∃ w' evs,
     SingleFile.buildExecutables h args bundlePath w = (Ok tt, w') ∧
     trace w' = trace w ++ evs ∧
     mkdirs evs = map (entry (SingleFile.distDir h)) (keys SingleFile.targets)) ∧
  (∀ bundlePath platform w e w1,
     SingleFile.buildForPlatform h platform bundlePath w = (Throw e, w1) →
     SingleFile.tryBuild h bundlePath platform w
     = (Ok tt, emit (EvError ("Failed to build for " +:+ platform +:+ ": " +:+ e)) w1)) ∧
  (∀ w0 w before platform after w1 r w2,
     keys Standalone.platforms = before ++ platform :: after →
     (Standalone.ensureBundle h ;;; mkdirSync (Standalone.distDir h)) w0 = (Ok tt, w) →
     for_of before (λ p, _ <- Standalone.buildPackage h p ;; ret tt)
       (emit (EvLog "Building packages for all platforms...") w) = (Ok tt, w1) →
     Standalone.buildPackage h platform w1 = (r, w2) →
     (∀ d, r ≠ Ok d) →
     ∃ e, r = Throw e ∧
          node_run (Standalone.script h args) w0
          = (1%Z, emit (EvError ("Uncaught Error: " +:+ e)) w2)).
Proof.
  intros Hall. split; [|split].
  - intros bundlePath w. by apply single_all_attempts.
  - intros bundlePath platform w e w1 Hthrow.
    unfold SingleFile.tryBuild, try_catch. by rewrite (bind_throw _ _ _ _ _ Hthrow).
  - intros w0 w before platform after w1 r w2 Hkeys Hpre Hloop Hrun Hfail.
    assert (Hkey : platform ∈ keys Standalone.platforms).
    { rewrite Hkeys. apply elem_of_app. right. by left. }
    destruct r as [d|e|c].
    + by destruct (Hfail d).
    + exists e. split; [done|]. unfold node_run.
      rewrite standalone_split, (bind_ok _ _ _ _ _ Hpre).
      rewrite (standalone_dispatch_all h args Hall), bind_assoc, step_log, Hkeys.
      assert (Hturn : (_ <- Standalone.buildPackage h platform ;; ret tt) w1
                      = (Throw e, w2)) by (by rewrite (bind_throw _ _ _ _ _ Hrun)).
      by rewrite (bind_throw _ _ _ _ _
                    (for_of_stops before after platform _ _ _ _ _ Hloop Hturn
                       ltac:(done))).
    + pose proof (standalone_buildPackage_no_exit h platform Hkey w1 c) as Hexit.
      rewrite Hrun in Hexit. by destruct Hexit.
Qed.

Lemma all_mode_failure_tolerance_witness :
  (∃ w' evs,
     SingleFile.buildExecutables broken_host ["--all"] ["repo"; "bundle"; "gemini.js"]
       (start fs_bundle) = (Ok tt, w') ∧
     trace w' = [] ++ evs ∧
     mkdirs evs = map (entry ["repo"; "dist-single"])
                    ["linux-x64"; "linux-arm64"; "mac-x64"; "mac-arm64"; "win-x64"]) ∧
  (node_run (Standalone.script linux_host ["--all"]) (start fs_blocked)).1 = 1%Z.
Proof.
  destruct (all_mode_failure_tolerance broken_host ["--all"] eq_refl) as (Hsingle & _ & _).
  destruct (all_mode_failure_tolerance linux_host ["--all"] eq_refl) as (_ & _ & Hstand).
  split; [apply Hsingle|].
  set (w0 := start fs_blocked).
  set (w := ((Standalone.ensureBundle linux_host ;;;
              mkdirSync (Standalone.distDir linux_host)) w0).2).
  set (w1 := (for_of ["linux-x64"]
                (λ p, _ <- Standalone.buildPackage linux_host p ;; ret tt)
                (emit (EvLog "Building packages for all platforms...") w)).2).
  set (run := Standalone.buildPackage linux_host "linux-arm64" w1).
  destruct (Hstand w0 w ["linux-x64"] "linux-arm64" ["mac-x64"; "mac-arm64"; "win-x64"]
              w1 run.1 run.2) as (e & _ & Hnode).
  - reflexivity.
  - refine (run_ok _ w0 tt _). vm_compute. reflexivity.
  - refine (run_ok _ (emit (EvLog "Building packages for all platforms...") w) tt _).
    vm_compute. reflexivity.
  - apply surjective_pairing.
  - intros d. vm_compute. discriminate.
  - by rewrite Hnode.
Defined.
